(** * PythonScripts: the password generator and its strength analyser

    A shallow embedding of [password-generator/password_generator.py]
    (class [PasswordGenerator]) and the properties of its two methods
    [generate_password] and [check_strength].

    - Python [str] values are lists of Unicode code points.
    - [int] arguments are [Z]; [range(n)] runs [Z.to_nat n] times, so a
      negative bound gives an empty range.
    - Exceptions and the operating system's randomness are explicit: a
      computation maps the state of the random source to an outcome
      (a value or a raised exception) and the state it leaves behind. *)

From Stdlib Require Import ZArith String Ascii Lia Reals Lra.
From stdpp Require Import base numbers list gmap.

Local Open Scope Z_scope.

(** ** Python values *)

Abbreviation char := N (only parsing).
Abbreviation str := (list N) (only parsing).

(** A string literal of the source, as its sequence of code points. *)
Definition py_str (s : string) : str :=
  N_of_ascii <$> list_ascii_of_string s.

(** The messages of the exceptions that can be raised. *)
Inductive message :=
| LengthTooShort
    (* "Password length must be at least 4 characters" *)
| NoCharacterTypes
    (* "No character types selected" *)
| MinimumExceeds (total_min_chars : nat) (length : Z)
    (* f"Minimum character requirements ({total_min_chars}) exceed
       password length ({length})" *)
| EmptySequence
    (* "Cannot choose from an empty sequence" *)
| IndexOutOfRange
    (* "list index out of range" *)
| MathDomainError.
    (* "math domain error" *)

Inductive exn :=
| ValueError (msg : message)
| IndexError (msg : message).

Inductive result (A : Type) :=
| Ok (a : A)
| Raise (e : exn).
Arguments Ok {A} a.
Arguments Raise {A} e.

(** ** The random source

    [secrets.choice] and [secrets.SystemRandom().shuffle] both obtain
    their indices from [SystemRandom._randbelow].  The source is an
    oracle: [outcome k] decides the [k]-th call of [_randbelow], and
    [consumed] counts the calls made so far. *)

Record source := { outcome : nat → nat; consumed : nat }.

Definition M (A : Type) : Type := source → result A * source.

Definition ret {A} (a : A) : M A := λ s, (Ok a, s).

Definition raise {A} (e : exn) : M A := λ s, (Raise e, s).

Definition bind {A B} (m : M A) (k : A → M B) : M B :=
  λ s, match m s with
       | (Ok a, s') => k a s'
       | (Raise e, s') => (Raise e, s')
       end.

Declare Scope py_scope.
Delimit Scope py_scope with py.
Notation "'let*' x := m 'in' k" := (bind m (λ x, k))
  (at level 10, x pattern, m at level 200, k at level 200) : py_scope.
Local Open Scope py_scope.

(** [_randbelow(n)] for [n > 0]: one value of the source, in [0, n). *)
Definition randbelow (n : nat) : M nat :=
  λ s, (Ok (outcome s (consumed s) `mod` n)%nat,
        {| outcome := outcome s; consumed := S (consumed s) |}).

(** [choice(seq)]: [IndexError] on an empty sequence, else
    [seq[_randbelow(len(seq))]]. *)
Definition choice (seq : str) : M char :=
  match seq with
  | [] => raise (IndexError EmptySequence)
  | _ =>
      let* i := randbelow (length seq) in
      match seq !! i with
      | Some c => ret c
      | None => raise (IndexError IndexOutOfRange)
      end
  end.

(** [[e for _ in range(n)]] with an effectful [e]. *)
Fixpoint repeat_draw {A} (n : nat) (e : M A) : M (list A) :=
  match n with
  | O => ret []
  | S n' =>
      let* x := e in
      let* xs := repeat_draw n' e in
      ret (x :: xs)
  end.

Definition for_range {A} (n : Z) (e : M A) : M (list A) :=
  repeat_draw (Z.to_nat n) e.

(** [x[i], x[j] = x[j], x[i]]: both reads happen before both writes. *)
Definition swap {A} (x : list A) (i j : nat) : M (list A) :=
  match x !! j, x !! i with
  | Some xj, Some xi => ret (<[j := xi]> (<[i := xj]> x))
  | _, _ => raise (IndexError IndexOutOfRange)
  end.

(** The loop of [Random.shuffle],
    [for i in reversed(range(1, len(x))): j = randbelow(i + 1); swap],
    entered at index [i]. *)
Fixpoint shuffle_from {A} (i : nat) (x : list A) : M (list A) :=
  match i with
  | O => ret x
  | S i' =>
      let* j := randbelow (S i) in
      let* x := swap x i j in
      shuffle_from i' x
  end.

Definition shuffle {A} (x : list A) : M (list A) :=
  shuffle_from (length x - 1)%nat x.

(** ** PasswordGenerator *)

(** The attributes set by [__init__]. *)
Definition lowercase : str := py_str "abcdefghijklmnopqrstuvwxyz".
Definition uppercase : str := py_str "ABCDEFGHIJKLMNOPQRSTUVWXYZ".
Definition digits : str := py_str "0123456789".
Definition special_chars : str := py_str "!@#$%^&*()-_+=[]{}|;:,.<>?".
Definition ambiguous_chars : str := py_str "il1Lo0O".

(** The keyword arguments of [generate_password]. *)
Module Request.
Record t := {
  length : Z;
  include_uppercase : bool;
  include_lowercase : bool;
  include_digits : bool;
  include_special : bool;
  exclude_ambiguous : bool;
  custom_chars : str;
  min_uppercase : Z;
  min_lowercase : Z;
  min_digits : Z;
  min_special : Z
}.

(** The defaults of the signature. *)
Definition default : t := {|
  length := 12;
  include_uppercase := true;
  include_lowercase := true;
  include_digits := true;
  include_special := true;
  exclude_ambiguous := false;
  custom_chars := [];
  min_uppercase := 1;
  min_lowercase := 1;
  min_digits := 1;
  min_special := 1
|}.
End Request.

(** [''.join(c for c in chars if c not in self.ambiguous_chars)] *)
Definition drop_ambiguous (chars : str) : str :=
  filter (λ c, c ∉ ambiguous_chars) chars.

Definition generate_password (r : Request.t) : M str :=
  if bool_decide (Request.length r < 4) then
    raise (ValueError LengthTooShort)
  else
    let char_pool : str := [] in
    let required_chars : list char := [] in
    let* (char_pool, required_chars) :=
      (if Request.include_lowercase r then
         let chars := lowercase in
         let chars :=
           if Request.exclude_ambiguous r then drop_ambiguous chars else chars in
         let* drawn := for_range (Request.min_lowercase r) (choice chars) in
         ret (char_pool ++ chars, required_chars ++ drawn)
       else ret (char_pool, required_chars)) in
    let* (char_pool, required_chars) :=
      (if Request.include_uppercase r then
         let chars := uppercase in
         let chars :=
           if Request.exclude_ambiguous r then drop_ambiguous chars else chars in
         let* drawn := for_range (Request.min_uppercase r) (choice chars) in
         ret (char_pool ++ chars, required_chars ++ drawn)
       else ret (char_pool, required_chars)) in
    let* (char_pool, required_chars) :=
      (if Request.include_digits r then
         let chars := digits in
         let chars :=
           if Request.exclude_ambiguous r then drop_ambiguous chars else chars in
         let* drawn := for_range (Request.min_digits r) (choice chars) in
         ret (char_pool ++ chars, required_chars ++ drawn)
       else ret (char_pool, required_chars)) in
    let* (char_pool, required_chars) :=
      (if Request.include_special r then
         let chars := special_chars in
         let* drawn := for_range (Request.min_special r) (choice chars) in
         ret (char_pool ++ chars, required_chars ++ drawn)
       else ret (char_pool, required_chars)) in
    let char_pool :=
      match Request.custom_chars r with
      | [] => char_pool
      | _ => char_pool ++ Request.custom_chars r
      end in
    match char_pool with
    | [] => raise (ValueError NoCharacterTypes)
    | _ =>
        let total_min_chars := length required_chars in
        if bool_decide (Z.of_nat total_min_chars > Request.length r) then
          raise (ValueError
                   (MinimumExceeds total_min_chars (Request.length r)))
        else
          let remaining_length := Request.length r - Z.of_nat total_min_chars in
          let* filler := for_range remaining_length (choice char_pool) in
          let password_chars := required_chars ++ filler in
          let* password_chars := shuffle password_chars in
          ret password_chars
    end.

(** *** check_strength *)

(** Exceptions without the random source, for the analyser. *)
Definition result_bind {A B} (m : result A) (k : A → result B) : result B :=
  match m with
  | Ok a => k a
  | Raise e => Raise e
  end.

Notation "'let+' x := m 'in' k" := (result_bind m (λ x, k))
  (at level 10, x pattern, m at level 200, k at level 200) : py_scope.

(** The numbers stored under ["entropy"]: the [int] it is initialised
    with, or the product of an [int] and a binary logarithm.  The
    logarithm is kept exact (its two factors) instead of being rounded
    to a double. *)
Inductive number :=
| Int (n : Z)
| TimesLog2 (n : nat) (x : nat).

(** [math.log2(x)] for an [int]: a domain error unless [x > 0]. *)
Definition math_log2 (x : nat) : result number :=
  match x with
  | O => Raise (ValueError MathDomainError)
  | _ => Ok (TimesLog2 1 x)
  end.

(** [n * v] for an [int] [n]. *)
Definition times (n : nat) (v : number) : number :=
  match v with
  | Int k => Int (Z.of_nat n * k)
  | TimesLog2 m x => TimesLog2 (n * m) x
  end.

(** [v >= k] for an [int] [k >= 0].  [n * log2 x >= k] is decided as
    [x ^ n >= 2 ^ k]; see [number_ge_real] for the agreement with the
    real numbers.  The inferred pool sizes are 10, 26, 36, 52, 62, 78
    and 88, none a power of two, so the real product is never 60 and the
    nearest products (56.4 to 59.8 below, 61.1 to 65.5 above) are far
    outside the rounding error of a double. *)
Definition number_ge (v : number) (k : Z) : bool :=
  match v with
  | Int n => bool_decide (k ≤ n)
  | TimesLog2 n x => bool_decide (2 ^ k ≤ Z.of_nat x ^ Z.of_nat n)
  end.

(** [u >= n * 0.8] for [int]s [u] and [n].  For [n] a multiple of 5 the
    double [n * 0.8] is the integer [4 * n / 5] exactly; otherwise it is
    at least 0.2 away from every integer.  Either way the comparison is
    that of the rationals. *)
Definition ge_times_0_8 (u n : nat) : bool :=
  bool_decide (4 * n ≤ 5 * u)%nat.

(** The dictionary returned by [check_strength]; its keys are fixed. *)
Module Analysis.
Record t := {
  length : nat;
  has_lowercase : bool;
  has_uppercase : bool;
  has_digits : bool;
  has_special : bool;
  has_ambiguous : bool;
  unique_chars : nat;
  entropy : number;
  strength : string
}.
End Analysis.

(** [any(c in alphabet for c in password)] *)
Definition any_in (alphabet password : str) : bool :=
  bool_decide (Exists (λ c, c ∈ alphabet) password).

(** The local variables of [check_strength] when it returns. *)
Record locals := {
  analysis : Analysis.t;
  char_pool_size : nat;
  score : nat
}.

Definition check_strength_locals (password : str) : result locals :=
  let length := length password in
  let has_lowercase := any_in lowercase password in
  let has_uppercase := any_in uppercase password in
  let has_digits := any_in digits password in
  let has_special := any_in special_chars password in
  let has_ambiguous := any_in ambiguous_chars password in
  let unique_chars := size (list_to_set password : gset N) in
  let entropy := Int 0 in
  let char_pool_size := 0%nat in
  let char_pool_size :=
    if has_lowercase then (char_pool_size + 26)%nat else char_pool_size in
  let char_pool_size :=
    if has_uppercase then (char_pool_size + 26)%nat else char_pool_size in
  let char_pool_size :=
    if has_digits then (char_pool_size + 10)%nat else char_pool_size in
  let char_pool_size :=
    if has_special then (char_pool_size + List.length special_chars)%nat
    else char_pool_size in
  let+ entropy :=
    if bool_decide (0 < char_pool_size)%nat then
      let+ l := math_log2 char_pool_size in
      Ok (times (List.length password) l)
    else Ok entropy in
  let score := 0%nat in
  let score := if bool_decide (8 ≤ length)%nat then S score else score in
  let score := if bool_decide (12 ≤ length)%nat then S score else score in
  let score := if has_lowercase then S score else score in
  let score := if has_uppercase then S score else score in
  let score := if has_digits then S score else score in
  let score := if has_special then S score else score in
  let score :=
    if ge_times_0_8 unique_chars (List.length password) then S score
    else score in
  let score := if number_ge entropy 60 then S score else score in
  let strength :=
    if bool_decide (score ≤ 2)%nat then "Very Weak"%string
    else if bool_decide (score ≤ 4)%nat then "Weak"%string
    else if bool_decide (score ≤ 6)%nat then "Moderate"%string
    else if bool_decide (score ≤ 7)%nat then "Strong"%string
    else "Very Strong"%string in
  Ok {| analysis :=
          {| Analysis.length := length;
             Analysis.has_lowercase := has_lowercase;
             Analysis.has_uppercase := has_uppercase;
             Analysis.has_digits := has_digits;
             Analysis.has_special := has_special;
             Analysis.has_ambiguous := has_ambiguous;
             Analysis.unique_chars := unique_chars;
             Analysis.entropy := entropy;
             Analysis.strength := strength |};
        char_pool_size := char_pool_size;
        score := score |}.

Definition check_strength (password : str) : result Analysis.t :=
  let+ l := check_strength_locals password in Ok (analysis l).

(** ** The vocabulary of the specification *)

Inductive CharacterClass := Lowercase | Uppercase | Digit | Special.

#[global] Instance CharacterClass_eq_dec : EqDecision CharacterClass.
Proof. solve_decision. Defined.

Definition all_classes : list CharacterClass :=
  [Lowercase; Uppercase; Digit; Special].

Definition reference_alphabet (cls : CharacterClass) : str :=
  match cls with
  | Lowercase => lowercase
  | Uppercase => uppercase
  | Digit => digits
  | Special => special_chars
  end.

(** The reference alphabet, without the ambiguous characters when they
    are excluded; the special characters are never filtered. *)
Definition effective_alphabet (cls : CharacterClass) (exclude : bool) : str :=
  match cls with
  | Special => reference_alphabet cls
  | _ =>
      if exclude
      then filter (λ c, c ∉ ambiguous_chars) (reference_alphabet cls)
      else reference_alphabet cls
  end.

Definition included (r : Request.t) (cls : CharacterClass) : bool :=
  match cls with
  | Lowercase => Request.include_lowercase r
  | Uppercase => Request.include_uppercase r
  | Digit => Request.include_digits r
  | Special => Request.include_special r
  end.

Definition minimum (r : Request.t) (cls : CharacterClass) : Z :=
  match cls with
  | Lowercase => Request.min_lowercase r
  | Uppercase => Request.min_uppercase r
  | Digit => Request.min_digits r
  | Special => Request.min_special r
  end.

(** The alphabet of a class in a request. *)
Definition alphabet_of (r : Request.t) (cls : CharacterClass) : str :=
  effective_alphabet cls (Request.exclude_ambiguous r).

(** A character of the candidate pool: one of the effective alphabet of
    an included class, or a custom character. *)
Definition in_candidate_pool (r : Request.t) (c : char) : Prop :=
  (∃ cls, included r cls = true ∧ c ∈ alphabet_of r cls)
  ∨ c ∈ Request.custom_chars r.

Definition candidate_pool_empty (r : Request.t) : Prop :=
  ∀ c, ¬ in_candidate_pool r c.

(** The sum of the minimum counts of the included classes, as written. *)
Definition minimum_sum (r : Request.t) : Z :=
  foldr (λ cls acc, (if included r cls then minimum r cls else 0) + acc)
    0 all_classes.

(** The same sum with every negative minimum counted as zero. *)
Definition clamped_minimum_sum (r : Request.t) : Z :=
  foldr (λ cls acc,
           (if included r cls then Z.max 0 (minimum r cls) else 0) + acc)
    0 all_classes.

(** How many characters of a password belong to an alphabet. *)
Definition count_in (alphabet password : str) : nat :=
  length (filter (λ c, c ∈ alphabet) password).

(** The real number a [number] stands for. *)
Definition value (v : number) : R :=
  match v with
  | Int n => IZR n
  | TimesLog2 n x => (INR n * (ln (INR x) / ln 2))%R
  end.

(** How many of the predicates hold. *)
Definition count_true (predicates : list bool) : nat :=
  length (filter Is_true predicates).

(** *** The analyser in the words of the specification *)

(** A class is present in a password that has a character of the
    class's reference alphabet. *)
Definition present (cls : CharacterClass) (password : str) : Prop :=
  ∃ c, c ∈ password ∧ c ∈ reference_alphabet cls.

#[global] Instance present_dec cls password : Decision (present cls password).
Proof.
  refine (cast_if
            (decide (Exists (λ c, c ∈ reference_alphabet cls) password)));
    unfold present; by rewrite <-Exists_exists.
Defined.

(** The number of distinct characters of a password. *)
Definition distinct_chars (password : str) : nat :=
  length (remove_dups password).

(** The sum, over the classes present, of the sizes of their reference
    alphabets; 0 when no class is present. *)
Definition pool_size (password : str) : nat :=
  sum_list
    ((λ cls, if decide (present cls password)
             then length (reference_alphabet cls) else 0%nat)
       <$> all_classes).

Definition log2 (x : R) : R := (ln x / ln 2)%R.

(** length x log2(pool_size) if the pool size is positive, else 0. *)
Definition entropy_bits (password : str) : R :=
  if decide (0 < pool_size password)%nat
  then (INR (length password) * log2 (INR (pool_size password)))%R
  else 0%R.

(** The eight predicates of the score. *)
Definition score_predicates (password : str) : list Prop :=
  [ (8 ≤ length password)%nat;
    (12 ≤ length password)%nat;
    present Lowercase password;
    present Uppercase password;
    present Digit password;
    present Special password;
    (INR (length password) * (8 / 10) <= INR (distinct_chars password))%R;
    (60 <= entropy_bits password)%R ].

(** [bs] tells, in order, which of the propositions [ps] hold. *)
Definition tells (bs : list bool) (ps : list Prop) : Prop :=
  Forall2 (λ (b : bool) (P : Prop), b = true ↔ P) bs ps.

(** ** Reasoning about computations *)

(** [post m s Q E]: run from [s], [m] returns a value and a state in [Q]
    or raises an exception with a state in [E]. *)
Definition post {A} (m : M A) (s : source)
    (Q : A → source → Prop) (E : exn → source → Prop) : Prop :=
  match m s with
  | (Ok a, s') => Q a s'
  | (Raise e, s') => E e s'
  end.

(** [drew n s s']: [s'] is [s] after [n] more values were consumed. *)
Definition drew (n : nat) (s s' : source) : Prop :=
  outcome s' = outcome s ∧ consumed s' = (consumed s + n)%nat.

Definition never : exn → source → Prop := λ _ _, False.

(** ** The parts of generate_password *)

(** The blocks for lowercase, uppercase, digits and special characters
    differ only in their flag, alphabet and minimum. *)
Definition class_block (include : bool) (chars : str) (min_count : Z)
    (char_pool : str) (required_chars : list char) : M (str * list char) :=
  if include then
    let* drawn := for_range min_count (choice chars) in
    ret (char_pool ++ chars, required_chars ++ drawn)
  else ret (char_pool, required_chars).

(** What follows the four blocks. *)
Definition after_blocks (r : Request.t) (char_pool : str)
    (required_chars : list char) : M str :=
  let char_pool :=
    match Request.custom_chars r with
    | [] => char_pool
    | _ => char_pool ++ Request.custom_chars r
    end in
  match char_pool with
  | [] => raise (ValueError NoCharacterTypes)
  | _ =>
      let total_min_chars := length required_chars in
      if bool_decide (Z.of_nat total_min_chars > Request.length r) then
        raise (ValueError (MinimumExceeds total_min_chars (Request.length r)))
      else
        let remaining_length := Request.length r - Z.of_nat total_min_chars in
        let* filler := for_range remaining_length (choice char_pool) in
        let password_chars := required_chars ++ filler in
        let* password_chars := shuffle password_chars in
        ret password_chars
  end.

Definition block_of (r : Request.t) (cls : CharacterClass) :=
  class_block (included r cls) (alphabet_of r cls) (minimum r cls).

(** The part of the pool a class contributes. *)
Definition pool_part (r : Request.t) (cls : CharacterClass) : str :=
  if included r cls then alphabet_of r cls else [].

(** The pool the code builds. *)
Definition candidate_pool (r : Request.t) : str :=
  pool_part r Lowercase ++ pool_part r Uppercase ++ pool_part r Digit
  ++ pool_part r Special ++ Request.custom_chars r.

(** The number of required characters the code draws for a class. *)
Definition required_count (r : Request.t) (cls : CharacterClass) : nat :=
  if included r cls then Z.to_nat (minimum r cls) else 0%nat.

Definition total_required (r : Request.t) : nat :=
  (required_count r Lowercase + required_count r Uppercase
   + required_count r Digit + required_count r Special)%nat.

(** [l] can be the required characters of a class. *)
Definition drawn_for (r : Request.t) (cls : CharacterClass)
    (l : list char) : Prop :=
  length l = required_count r cls ∧ Forall (λ c, c ∈ alphabet_of r cls) l.

(** A request with the minimum count of one class replaced. *)
Definition with_minimum (r : Request.t) (cls : CharacterClass) (m : Z)
    : Request.t := {|
  Request.length := Request.length r;
  Request.include_uppercase := Request.include_uppercase r;
  Request.include_lowercase := Request.include_lowercase r;
  Request.include_digits := Request.include_digits r;
  Request.include_special := Request.include_special r;
  Request.exclude_ambiguous := Request.exclude_ambiguous r;
  Request.custom_chars := Request.custom_chars r;
  Request.min_uppercase :=
    match cls with Uppercase => m | _ => Request.min_uppercase r end;
  Request.min_lowercase :=
    match cls with Lowercase => m | _ => Request.min_lowercase r end;
  Request.min_digits :=
    match cls with Digit => m | _ => Request.min_digits r end;
  Request.min_special :=
    match cls with Special => m | _ => Request.min_special r end
|}.

(** ** The parts of check_strength *)

(** The accumulation of [char_pool_size]. *)
Definition pool_size_of (has_lowercase has_uppercase has_digits has_special
    : bool) : nat :=
  let char_pool_size := 0%nat in
  let char_pool_size :=
    if has_lowercase then (char_pool_size + 26)%nat else char_pool_size in
  let char_pool_size :=
    if has_uppercase then (char_pool_size + 26)%nat else char_pool_size in
  let char_pool_size :=
    if has_digits then (char_pool_size + 10)%nat else char_pool_size in
  let char_pool_size :=
    if has_special then (char_pool_size + List.length special_chars)%nat
    else char_pool_size in
  char_pool_size.

(** The value stored under ["entropy"]. *)
Definition entropy_of (len char_pool_size : nat) : result number :=
  if bool_decide (0 < char_pool_size)%nat then
    let+ l := math_log2 char_pool_size in
    Ok (times len l)
  else Ok (Int 0).

(** The accumulation of [score]. *)
Definition score_of (len : nat)
    (has_lowercase has_uppercase has_digits has_special : bool)
    (unique_chars : nat) (entropy : number) : nat :=
  let score := 0%nat in
  let score := if bool_decide (8 ≤ len)%nat then S score else score in
  let score := if bool_decide (12 ≤ len)%nat then S score else score in
  let score := if has_lowercase then S score else score in
  let score := if has_uppercase then S score else score in
  let score := if has_digits then S score else score in
  let score := if has_special then S score else score in
  let score :=
    if ge_times_0_8 unique_chars len then S score else score in
  let score := if number_ge entropy 60 then S score else score in
  score.

(** The chain that chooses the label. *)
Definition strength_of (score : nat) : string :=
  if bool_decide (score ≤ 2)%nat then "Very Weak"%string
  else if bool_decide (score ≤ 4)%nat then "Weak"%string
  else if bool_decide (score ≤ 6)%nat then "Moderate"%string
  else if bool_decide (score ≤ 7)%nat then "Strong"%string
  else "Very Strong"%string.

(** ** Sources, requests and reports used below *)

(** A source that always answers [k]. *)
Definition constant_source (k : nat) : source :=
  {| outcome := λ _, k; consumed := 0 |}.

(** A source that answers 0, 1, 2, ... *)
Definition counting_source : source :=
  {| outcome := λ k, k; consumed := 0 |}.

(** Length 4 with minimum counts 2 + 1 + 1 + 1 = 5. *)
Definition request_minimum_five : Request.t := {|
  Request.length := 4;
  Request.include_uppercase := true;
  Request.include_lowercase := true;
  Request.include_digits := true;
  Request.include_special := true;
  Request.exclude_ambiguous := false;
  Request.custom_chars := [];
  Request.min_uppercase := 1;
  Request.min_lowercase := 2;
  Request.min_digits := 1;
  Request.min_special := 1
|}.

(** Length 4, letters only, minimum counts -3 and 5. *)
Definition request_negative_minimum : Request.t := {|
  Request.length := 4;
  Request.include_uppercase := true;
  Request.include_lowercase := true;
  Request.include_digits := false;
  Request.include_special := false;
  Request.exclude_ambiguous := false;
  Request.custom_chars := [];
  Request.min_uppercase := 5;
  Request.min_lowercase := -3;
  Request.min_digits := 0;
  Request.min_special := 0
|}.

(** The defaults, without the ambiguous characters. *)
Definition request_unambiguous : Request.t := {|
  Request.length := 12;
  Request.include_uppercase := true;
  Request.include_lowercase := true;
  Request.include_digits := true;
  Request.include_special := true;
  Request.exclude_ambiguous := true;
  Request.custom_chars := [];
  Request.min_uppercase := 1;
  Request.min_lowercase := 1;
  Request.min_digits := 1;
  Request.min_special := 1
|}.

(** The report and the local variables for the empty string. *)
Definition empty_locals : locals := {|
  analysis := {|
    Analysis.length := 0;
    Analysis.has_lowercase := false;
    Analysis.has_uppercase := false;
    Analysis.has_digits := false;
    Analysis.has_special := false;
    Analysis.has_ambiguous := false;
    Analysis.unique_chars := 0;
    Analysis.entropy := Int 0;
    Analysis.strength := "Very Weak" |};
  char_pool_size := 0;
  score := 1
|}.

(** ** The callers of generate_password *)

(** [[self.generate_password( **kwargs) for _ in range(count)]] *)
Definition generate_multiple (count : Z) (kwargs : Request.t)
    : M (list str) :=
  for_range count (generate_password kwargs).

(** What [parse_args] hands to [main]. *)
Inductive output_format := Txt | Json.

Module Args.
Record t := {
  length : Z;
  count : Z;
  no_uppercase : bool;
  no_lowercase : bool;
  no_digits : bool;
  no_special : bool;
  exclude_ambiguous : bool;
  custom_chars : str;
  min_uppercase : Z;
  min_lowercase : Z;
  min_digits : Z;
  min_special : Z;
  output : option str;
  format : output_format;
  check : option str;
  quiet : bool;
  show_strength : bool
}.
End Args.

(** The keyword arguments [main] passes on: a class switched off has
    its minimum replaced by 0. *)
Definition main_kwargs (args : Args.t) : Request.t := {|
  Request.length := Args.length args;
  Request.include_uppercase := negb (Args.no_uppercase args);
  Request.include_lowercase := negb (Args.no_lowercase args);
  Request.include_digits := negb (Args.no_digits args);
  Request.include_special := negb (Args.no_special args);
  Request.exclude_ambiguous := Args.exclude_ambiguous args;
  Request.custom_chars := Args.custom_chars args;
  Request.min_uppercase :=
    if negb (Args.no_uppercase args) then Args.min_uppercase args else 0;
  Request.min_lowercase :=
    if negb (Args.no_lowercase args) then Args.min_lowercase args else 0;
  Request.min_digits :=
    if negb (Args.no_digits args) then Args.min_digits args else 0;
  Request.min_special :=
    if negb (Args.no_special args) then Args.min_special args else 0
|}.

(** The call [generator.generate_multiple(count=args.count, ...)] of
    [main]. *)
Definition main_generate (args : Args.t) : M (list str) :=
  generate_multiple (Args.count args) (main_kwargs args).

(** The same keyword arguments with the minimum counts as given. *)
Definition unforced_kwargs (args : Args.t) : Request.t := {|
  Request.length := Args.length args;
  Request.include_uppercase := negb (Args.no_uppercase args);
  Request.include_lowercase := negb (Args.no_lowercase args);
  Request.include_digits := negb (Args.no_digits args);
  Request.include_special := negb (Args.no_special args);
  Request.exclude_ambiguous := Args.exclude_ambiguous args;
  Request.custom_chars := Args.custom_chars args;
  Request.min_uppercase := Args.min_uppercase args;
  Request.min_lowercase := Args.min_lowercase args;
  Request.min_digits := Args.min_digits args;
  Request.min_special := Args.min_special args
|}.

(** ** Requests and passwords *)

(** A request none of the three checks rejects. *)
Definition valid_request (r : Request.t) : Prop :=
  4 ≤ Request.length r
  ∧ ¬ candidate_pool_empty r
  ∧ clamped_minimum_sum r ≤ Request.length r.

(** A password that meets a request. *)
Definition meets (r : Request.t) (pw : str) : Prop :=
  Z.of_nat (length pw) = Request.length r
  ∧ (∀ c, c ∈ pw → in_candidate_pool r c)
  ∧ ∀ cls, included r cls = true →
           minimum r cls ≤ Z.of_nat (count_in (alphabet_of r cls) pw).

(** The values one successful call takes from the random source: one
    per character and one per step of the shuffle. *)
Definition draws_per_password (r : Request.t) : nat :=
  Z.to_nat (2 * Request.length r - 1).

(** The presence flag of a class in a report. *)
Definition has_class (a : Analysis.t) (cls : CharacterClass) : bool :=
  match cls with
  | Lowercase => Analysis.has_lowercase a
  | Uppercase => Analysis.has_uppercase a
  | Digit => Analysis.has_digits a
  | Special => Analysis.has_special a
  end.

(** How many of the four classes are present in a password. *)
Definition classes_in (password : str) : nat :=
  count_true ((λ cls, bool_decide (present cls password)) <$> all_classes).

(** ** Sources with prescribed values *)

(** The next values of the source are [js], in this order. *)
Definition feeds (s : source) (js : list nat) : Prop :=
  ∀ k j, js !! k = Some j → outcome s (consumed s + k)%nat = j.

(** A source whose first values are [js]. *)
Definition source_of (js : list nat) : source :=
  {| outcome := λ k, default 0%nat (js !! k); consumed := 0 |}.

(** ** image_compressor.py *)

Module ImageCompressor.

(** What a save of Pillow can raise. *)
Inductive save_error :=
| UnknownFileExtension
    (* ValueError("unknown file extension: ...") *)
| CannotWrite.
    (* OSError *)

Inductive attempt (A : Type) :=
| Done (a : A)
| Failed (e : save_error).
Arguments Done {A} a.
Arguments Failed {A} e.

(** What [compress_image] uses of an opened image and of Pillow:
    [img.format]; the outcome of
    [img.save(buf, quality=q, optimize=True)] on a fresh [BytesIO], that
    is the position [buf.tell()] after it or the exception it raises;
    and the outcome of [img.save(output_path, quality=q, optimize=True)]. *)
Record image := {
  format : string;
  save_to_buffer : Z → attempt nat;
  save_to_path : Z → attempt unit
}.

(** The calls of [img.save] that were made, in order. *)
Inductive save_call :=
| ToBuffer (quality : Z)
| ToPath (quality : Z).

(** [range(start, stop, step)] for a step other than 0. *)
Definition py_range (start stop step : Z) : list Z :=
  let n :=
    if bool_decide (0 < step) then (stop - start + step - 1) `div` step
    else (start - stop - step - 1) `div` (- step) in
  (λ i : nat, start + Z.of_nat i * step) <$> seq 0 (Z.to_nat n).

(** The loop [for q in ...] of [compress_image]: an exception of the
    in-memory save leaves the loop and the function; the first quality
    whose encoding is small enough ends the loop; [best_q] is kept when
    the qualities run out. *)
Fixpoint search (img : image) (target_size_kb : Z) (qs : list Z)
    (best_q : Z) : attempt Z * list save_call :=
  match qs with
  | [] => (Done best_q, [])
  | q :: qs' =>
      match save_to_buffer img q with
      | Failed e => (Failed e, [ToBuffer q])
      | Done bytes =>
          let size_kb := Z.of_nat bytes `div` 1024 in
          if bool_decide (size_kb ≤ target_size_kb) then
            (Done q, [ToBuffer q])
          else
            let (found, calls) := search img target_size_kb qs' best_q in
            (found, ToBuffer q :: calls)
      end
  end.

(** What [compress_image] does with a file: nothing, for a format
    other than JPEG and PNG, or save it with some quality. *)
Inductive outcome :=
| Skipped
| Saved (quality : Z).

(** [img.save(output_path, quality=q, optimize=True)] *)
Definition save_with (img : image) (q : Z)
    : attempt outcome * list save_call :=
  (match save_to_path img q with
   | Done _ => Done (Saved q)
   | Failed e => Failed e
   end,
   [ToPath q]).

(** [if quality:] for a [quality] that is [None] or an [int]. *)
Definition truthy (quality : option Z) : bool :=
  match quality with
  | Some q => bool_decide (q ≠ 0)
  | None => false
  end.

(** [compress_image] on an opened image: its result and the saves it
    made.  The paths, the file sizes it prints and the messages are
    left out. *)
Definition compress_image (img : image) (target_size_kb : Z)
    (quality : option Z) : attempt outcome * list save_call :=
  if negb (String.eqb (format img) "JPEG" || String.eqb (format img) "PNG")
  then (Done Skipped, [])
  else if truthy quality then save_with img (default 0 quality)
  else
    let min_q := 10 in
    let max_q := 95 in
    let best_q := max_q in
    match search img target_size_kb (py_range max_q (min_q - 1) (-5)) best_q
    with
    | (Failed e, calls) => (Failed e, calls)
    | (Done best_q, calls) =>
        let (saved, last) := save_with img best_q in
        (saved, calls ++ last)
    end.

(** No override: [quality] is absent or 0. *)
Definition no_override (quality : option Z) : Prop :=
  quality = None ∨ quality = Some 0.

(** A JPEG as Pillow treats it: a save to a [BytesIO] with no
    [format] argument finds no file extension to choose the format
    from and raises; a save to a path succeeds. *)
Definition jpeg_without_buffer_format : image := {|
  format := "JPEG";
  save_to_buffer := λ _, Failed UnknownFileExtension;
  save_to_path := λ _, Done ()
|}.

End ImageCompressor.

(** ** Runs of the embedding *)

Example check_strength_mypassword123 :
  check_strength (py_str "mypassword123")
  = Ok {| Analysis.length := 13;
          Analysis.has_lowercase := true;
          Analysis.has_uppercase := false;
          Analysis.has_digits := true;
          Analysis.has_special := false;
          Analysis.has_ambiguous := true;
          Analysis.unique_chars := 12;
          Analysis.entropy := TimesLog2 13 36;
          Analysis.strength := "Moderate" |}.
Proof. vm_compute. reflexivity. Qed.

Example check_strength_all_classes :
  check_strength_locals (py_str "Aa1!Bb2@Cc3#")
  = Ok {| analysis :=
            {| Analysis.length := 12;
               Analysis.has_lowercase := true;
               Analysis.has_uppercase := true;
               Analysis.has_digits := true;
               Analysis.has_special := true;
               Analysis.has_ambiguous := true;
               Analysis.unique_chars := 12;
               Analysis.entropy := TimesLog2 12 88;
               Analysis.strength := "Very Strong" |};
          char_pool_size := 88;
          score := 8 |}.
Proof. vm_compute. reflexivity. Qed.

Example generate_default :
  generate_password Request.default counting_source
  = (Ok (py_str "Bkifjh$lge2a"), {| outcome := λ k, k; consumed := 23 |}).
Proof. vm_compute. reflexivity. Qed.

(** The exemption is real: with the ambiguous characters excluded, a
    custom [O] still reaches the password. *)
Example custom_characters_not_filtered :
  let r := {|
    Request.length := 4;
    Request.include_uppercase := false;
    Request.include_lowercase := true;
    Request.include_digits := false;
    Request.include_special := false;
    Request.exclude_ambiguous := true;
    Request.custom_chars := py_str "O";
    Request.min_uppercase := 0;
    Request.min_lowercase := 1;
    Request.min_digits := 0;
    Request.min_special := 0 |} in
  generate_password r (constant_source 23)
  = (Ok (py_str "aOOO"), {| outcome := λ _, 23%nat; consumed := 7 |}).
Proof. vm_compute. reflexivity. Qed.

(** ** Rules for computations *)

Section Post.
Context {A B : Type}.
Implicit Types (s : source) (E : exn → source → Prop).

Lemma post_ret (a : A) s (Q : A → source → Prop) E :
  Q a s → post (ret a) s Q E.
Proof. done. Qed.

Lemma post_raise e s (Q : A → source → Prop) E :
  E e s → post (raise e) s Q E.
Proof. done. Qed.

Lemma post_bind (m : M A) (k : A → M B) s (Q : B → source → Prop) E :
  post m s (λ a s', post (k a) s' Q E) E → post (bind m k) s Q E.
Proof. unfold post, bind. by destruct (m s) as [[a|e] s']. Qed.

Lemma post_mono (m : M A) s (Q Q' : A → source → Prop) E E' :
  post m s Q E →
  (∀ a s', Q a s' → Q' a s') →
  (∀ e s', E e s' → E' e s') →
  post m s Q' E'.
Proof. unfold post. destruct (m s) as [[a|e] s']; eauto. Qed.

Lemma post_ok (m : M A) s (Q : A → source → Prop) E a s' :
  post m s Q E → m s = (Ok a, s') → Q a s'.
Proof. unfold post. intros H Heq. by rewrite Heq in H. Qed.

Lemma post_err (m : M A) s (Q : A → source → Prop) E e s' :
  post m s Q E → m s = (Raise e, s') → E e s'.
Proof. unfold post. intros H Heq. by rewrite Heq in H. Qed.

Lemma post_never (m : M A) s (Q : A → source → Prop) :
  post m s Q never → ∃ a s', m s = (Ok a, s') ∧ Q a s'.
Proof. unfold post, never. destruct (m s) as [[a|e] s']; naive_solver. Qed.
End Post.

Lemma drew_refl s : drew 0 s s.
Proof. split; [done | lia]. Qed.

Lemma drew_trans n m s1 s2 s3 :
  drew n s1 s2 → drew m s2 s3 → drew (n + m) s1 s3.
Proof. intros [? ?] [? ?]. split; [congruence | lia]. Qed.

Lemma post_randbelow n s :
  post (randbelow n) s (λ i s', (0 < n → i < n)%nat ∧ drew 1 s s') never.
Proof.
  unfold post, randbelow, drew; simpl. split_and!; [|done|lia].
  intros Hn. apply Nat.mod_upper_bound. lia.
Qed.

Lemma post_choice seq s :
  seq ≠ [] →
  post (choice seq) s (λ c s', c ∈ seq ∧ drew 1 s s') never.
Proof.
  intros Hne. unfold choice. destruct seq as [|c0 seq']; [done|].
  apply post_bind.
  eapply post_mono; [apply post_randbelow | | done].
  intros i s' [Hi Hs']. simpl in Hi.
  destruct (lookup_lt_is_Some_2 (c0 :: seq') i) as [c Hc]; [simpl; lia|].
  rewrite Hc. apply post_ret. split; [|done].
  by eapply list_elem_of_lookup_2.
Qed.

Lemma post_repeat_draw {A} (P : A → Prop) (e : M A) n s :
  (∀ s0, post e s0 (λ a s', P a ∧ drew 1 s0 s') never) →
  post (repeat_draw n e) s
    (λ l s', length l = n ∧ Forall P l ∧ drew n s s') never.
Proof.
  intros He. revert s. induction n as [|n IH]; intros s; simpl.
  - apply post_ret. split_and!; [done | constructor | apply drew_refl].
  - apply post_bind. eapply post_mono; [apply He | | done].
    intros a s1 [Ha Hs1]. apply post_bind.
    eapply post_mono; [apply IH | | done].
    intros l s2 (Hlen & Hl & Hs2). apply post_ret.
    split_and!; [simpl; lia | by constructor |].
    by apply (drew_trans 1 n s s1 s2).
Qed.

(** ** The shuffle is a permutation *)

Lemma insert_cons_Permutation {A} (l : list A) j y a :
  l !! j = Some y → y :: <[j := a]> l ≡ₚ a :: l.
Proof.
  revert j. induction l as [|b l IH]; intros [|j] Hj; simplify_eq/=.
  - apply Permutation_swap.
  - rewrite Permutation_swap, (IH j Hj). apply Permutation_swap.
Qed.

Lemma exchange_Permutation {A} (x : list A) i j xi xj :
  x !! i = Some xi → x !! j = Some xj →
  <[j := xi]> (<[i := xj]> x) ≡ₚ x.
Proof.
  revert i j. induction x as [|a x IH]; intros [|i] [|j] Hi Hj; simplify_eq/=.
  - done.
  - by apply insert_cons_Permutation.
  - by apply insert_cons_Permutation.
  - f_equiv. by apply IH.
Qed.

Lemma post_swap {A} (x : list A) i j s :
  (i < length x)%nat → (j < length x)%nat →
  post (swap x i j) s (λ x' s', x' ≡ₚ x ∧ s' = s) never.
Proof.
  intros Hi Hj. unfold swap.
  destruct (lookup_lt_is_Some_2 x i Hi) as [xi Hxi].
  destruct (lookup_lt_is_Some_2 x j Hj) as [xj Hxj].
  rewrite Hxi, Hxj. apply post_ret. split; [|done].
  by apply exchange_Permutation.
Qed.

Lemma post_shuffle_from {A} i (x : list A) s :
  (i < length x ∨ i = 0)%nat →
  post (shuffle_from i x) s (λ x' s', x' ≡ₚ x ∧ drew i s s') never.
Proof.
  revert x s. induction i as [|i IH]; intros x s Hi.
  - apply post_ret. split; [done | apply drew_refl].
  - cbn [shuffle_from]. apply post_bind.
    eapply post_mono; [apply post_randbelow | | done].
    intros j s1 [Hj Hs1]. apply post_bind.
    eapply post_mono; [apply (post_swap x (S i) j); lia | | done].
    intros x1 ? [Hx1 ->].
    eapply post_mono; [apply IH | | done].
    + rewrite Hx1. lia.
    + intros x2 s2 [Hx2 Hs2]. split; [by rewrite Hx2|].
      by apply (drew_trans 1 i s s1 s2).
Qed.

Lemma post_shuffle {A} (x : list A) s :
  post (shuffle x) s
    (λ x' s', x' ≡ₚ x ∧ drew (length x - 1) s s') never.
Proof. unfold shuffle. apply post_shuffle_from. lia. Qed.

(** ** Every run of generate_password *)

Lemma generate_password_blocks r :
  generate_password r =
  if bool_decide (Request.length r < 4) then raise (ValueError LengthTooShort)
  else
    let* (char_pool, required_chars) := block_of r Lowercase [] [] in
    let* (char_pool, required_chars) :=
      block_of r Uppercase char_pool required_chars in
    let* (char_pool, required_chars) :=
      block_of r Digit char_pool required_chars in
    let* (char_pool, required_chars) :=
      block_of r Special char_pool required_chars in
    after_blocks r char_pool required_chars.
Proof. reflexivity. Qed.

Lemma effective_alphabet_nonempty cls exclude :
  effective_alphabet cls exclude ≠ [].
Proof. by destruct cls, exclude; vm_compute. Qed.

Lemma elem_of_candidate_pool r c :
  c ∈ candidate_pool r ↔ in_candidate_pool r c.
Proof.
  unfold candidate_pool, in_candidate_pool, pool_part.
  rewrite !elem_of_app. split.
  - intros [H|[H|[H|[H|H]]]]; [| | | |by right]; left.
    + exists Lowercase. destruct (included r Lowercase); [done|by inv H].
    + exists Uppercase. destruct (included r Uppercase); [done|by inv H].
    + exists Digit. destruct (included r Digit); [done|by inv H].
    + exists Special. destruct (included r Special); [done|by inv H].
  - intros [(cls & Hin & Hc)|H]; [|tauto].
    destruct cls; rewrite Hin; tauto.
Qed.

Lemma candidate_pool_nil r :
  candidate_pool r = [] ↔ candidate_pool_empty r.
Proof.
  unfold candidate_pool_empty. split.
  - intros Hnil c Hc. apply elem_of_candidate_pool in Hc.
    rewrite Hnil in Hc. by inv Hc.
  - intros Hempty. destruct (candidate_pool r) as [|c l] eqn:Hpool; [done|].
    destruct (Hempty c). apply elem_of_candidate_pool.
    rewrite Hpool. by left.
Qed.

Lemma candidate_pool_nil_included r cls :
  candidate_pool r = [] → included r cls = false.
Proof.
  intros Hnil. destruct (included r cls) eqn:Hin; [|done].
  pose proof (effective_alphabet_nonempty cls (Request.exclude_ambiguous r))
    as Hne.
  destruct (effective_alphabet cls (Request.exclude_ambiguous r))
    as [|c l] eqn:Heff; [done|].
  apply candidate_pool_nil in Hnil. destruct (Hnil c).
  left. exists cls. split; [done|]. unfold alphabet_of. rewrite Heff. by left.
Qed.

Lemma candidate_pool_nil_total r :
  candidate_pool r = [] → total_required r = 0%nat.
Proof.
  intros Hnil. unfold total_required, required_count.
  by rewrite !(candidate_pool_nil_included r _ Hnil).
Qed.

Lemma total_required_clamped r :
  Z.of_nat (total_required r) = clamped_minimum_sum r.
Proof.
  unfold total_required, required_count, clamped_minimum_sum; simpl.
  repeat match goal with |- context [if ?b then _ else _] => destruct b end;
    lia.
Qed.

Lemma post_block_of r cls pool req s :
  post (block_of r cls pool req) s
    (λ out s',
       ∃ drawn, out = (pool ++ pool_part r cls, req ++ drawn)
                ∧ drawn_for r cls drawn
                ∧ drew (required_count r cls) s s')
    never.
Proof.
  unfold block_of, class_block, pool_part, drawn_for, required_count.
  destruct (included r cls).
  - apply post_bind. unfold for_range.
    eapply post_mono;
      [apply (post_repeat_draw (λ c, c ∈ alphabet_of r cls)) | | done].
    + intros s0. apply post_choice, effective_alphabet_nonempty.
    + intros drawn s' (Hlen & Hall & Hs'). apply post_ret.
      exists drawn. by rewrite Hlen.
  - apply post_ret. exists []. rewrite !app_nil_r.
    split_and!; [done | done | constructor | apply drew_refl].
Qed.

Lemma post_after_blocks r pool req s :
  post (after_blocks r pool req) s
    (λ pw s',
       pool ++ Request.custom_chars r ≠ []
       ∧ Z.of_nat (length req) ≤ Request.length r
       ∧ ∃ filler,
           pw ≡ₚ req ++ filler
           ∧ Forall (λ c, c ∈ pool ++ Request.custom_chars r) filler
           ∧ length filler = Z.to_nat (Request.length r - Z.of_nat (length req))
           ∧ drew (length filler + (length pw - 1)) s s')
    (λ e s',
       s' = s
       ∧ ((pool ++ Request.custom_chars r = []
           ∧ e = ValueError NoCharacterTypes)
          ∨ (pool ++ Request.custom_chars r ≠ []
             ∧ Request.length r < Z.of_nat (length req)
             ∧ e = ValueError
                     (MinimumExceeds (length req) (Request.length r))))).
Proof.
  unfold after_blocks.
  replace (match Request.custom_chars r with
           | [] => pool
           | _ :: _ => pool ++ Request.custom_chars r
           end) with (pool ++ Request.custom_chars r)
    by (destruct (Request.custom_chars r); [apply app_nil_r | done]).
  destruct (pool ++ Request.custom_chars r) as [|c0 l0] eqn:Hpool.
  { apply post_raise. split; [done|]. by left. }
  case_bool_decide as Hmin.
  { apply post_raise. split; [done|]. right. split_and!; [done | lia | done]. }
  apply post_bind. unfold for_range.
  eapply post_mono;
    [apply (post_repeat_draw (λ c, c ∈ c0 :: l0)) | | done].
  { intros s0. by apply post_choice. }
  intros filler s1 (Hlen & Hall & Hs1). apply post_bind.
  eapply post_mono; [apply post_shuffle | | done].
  intros pw s2 [Hpw Hs2]. apply post_ret.
  split_and!; [done | lia |]. exists filler.
  split_and!; [done | done | done |].
  rewrite <-Hlen in Hs1. rewrite Hpw.
  by apply (drew_trans _ _ s s1 s2).
Qed.

(** Every run of [generate_password]: its three errors with the draws
    made before them, and the shape of a returned password. *)
Lemma generate_password_post r s :
  post (generate_password r) s
    (λ pw s',
       4 ≤ Request.length r
       ∧ candidate_pool r ≠ []
       ∧ Z.of_nat (total_required r) ≤ Request.length r
       ∧ ∃ rl ru rd rs filler,
           pw ≡ₚ (rl ++ ru ++ rd ++ rs) ++ filler
           ∧ drawn_for r Lowercase rl ∧ drawn_for r Uppercase ru
           ∧ drawn_for r Digit rd ∧ drawn_for r Special rs
           ∧ Forall (λ c, c ∈ candidate_pool r) filler
           ∧ length filler
             = Z.to_nat (Request.length r - Z.of_nat (total_required r))
           ∧ drew (total_required r + length filler + (length pw - 1)) s s')
    (λ e s',
       (Request.length r < 4
        ∧ e = ValueError LengthTooShort ∧ drew 0 s s')
       ∨ (4 ≤ Request.length r ∧ candidate_pool r = []
          ∧ e = ValueError NoCharacterTypes ∧ drew 0 s s')
       ∨ (4 ≤ Request.length r ∧ candidate_pool r ≠ []
          ∧ Request.length r < Z.of_nat (total_required r)
          ∧ e = ValueError
                  (MinimumExceeds (total_required r) (Request.length r))
          ∧ drew (total_required r) s s')).
Proof.
  rewrite generate_password_blocks. case_bool_decide as Hlen.
  { apply post_raise. left. split_and!; [done | done | apply drew_refl]. }
  apply post_bind.
  eapply post_mono; [apply post_block_of | | done].
  intros ? s1 (rl & -> & Hrl & Hs1). apply post_bind.
  eapply post_mono; [apply post_block_of | | done].
  intros ? s2 (ru & -> & Hru & Hs2). apply post_bind.
  eapply post_mono; [apply post_block_of | | done].
  intros ? s3 (rd & -> & Hrd & Hs3). apply post_bind.
  eapply post_mono; [apply post_block_of | | done].
  intros ? s4 (rs & -> & Hrs & Hs4).
  assert (Hpool : ((([] ++ pool_part r Lowercase) ++ pool_part r Uppercase)
                   ++ pool_part r Digit) ++ pool_part r Special
                  ++ Request.custom_chars r = candidate_pool r).
  { unfold candidate_pool. by rewrite <-!(assoc_L (++)). }
  assert (Hreq : length ((([] ++ rl) ++ ru) ++ rd ++ rs) = total_required r).
  { unfold total_required.
    destruct Hrl as [<- _], Hru as [<- _], Hrd as [<- _], Hrs as [<- _].
    rewrite !length_app. simpl. lia. }
  assert (Hs : drew (total_required r) s s4).
  { unfold total_required.
    eapply drew_trans; [|done]. eapply drew_trans; [|done].
    eapply drew_trans; [|done]. done. }
  eapply post_mono; [apply post_after_blocks | |].
  - intros pw s5. rewrite <-(assoc_L (++) _ (pool_part r Special)), Hpool.
    rewrite <-(assoc_L (++) _ rd rs), Hreq.
    intros (Hne & Htot & filler & Hpw & Hfill & Hflen & Hs5).
    split_and!; [lia | done | done |].
    exists rl, ru, rd, rs, filler.
    split_and!; [|done..|].
    + rewrite Hpw. by rewrite <-!(assoc_L (++)).
    + rewrite <-(assoc_L Nat.add). by eapply drew_trans.
  - intros e s5. rewrite <-(assoc_L (++) _ (pool_part r Special)), Hpool.
    rewrite <-(assoc_L (++) _ rd rs), Hreq.
    intros [-> [[Hnil ->]|(Hne & Hlt & ->)]]; right.
    + left. split_and!; [lia | done | done |].
      by rewrite <-(candidate_pool_nil_total r Hnil).
    + right. split_and!; [lia | done..].
Qed.

Lemma generate_password_ok_inv r s pw s' :
  generate_password r s = (Ok pw, s') →
  4 ≤ Request.length r
  ∧ candidate_pool r ≠ []
  ∧ Z.of_nat (total_required r) ≤ Request.length r
  ∧ ∃ rl ru rd rs filler,
      pw ≡ₚ (rl ++ ru ++ rd ++ rs) ++ filler
      ∧ drawn_for r Lowercase rl ∧ drawn_for r Uppercase ru
      ∧ drawn_for r Digit rd ∧ drawn_for r Special rs
      ∧ Forall (λ c, c ∈ candidate_pool r) filler
      ∧ length filler
        = Z.to_nat (Request.length r - Z.of_nat (total_required r))
      ∧ drew (total_required r + length filler + (length pw - 1)) s s'.
Proof. intros Hrun. exact (post_ok _ _ _ _ _ _ (generate_password_post r s) Hrun). Qed.

Lemma generate_password_err_inv r s e s' :
  generate_password r s = (Raise e, s') →
  (Request.length r < 4
   ∧ e = ValueError LengthTooShort ∧ drew 0 s s')
  ∨ (4 ≤ Request.length r ∧ candidate_pool r = []
     ∧ e = ValueError NoCharacterTypes ∧ drew 0 s s')
  ∨ (4 ≤ Request.length r ∧ candidate_pool r ≠ []
     ∧ Request.length r < Z.of_nat (total_required r)
     ∧ e = ValueError (MinimumExceeds (total_required r) (Request.length r))
     ∧ drew (total_required r) s s').
Proof. intros Hrun. exact (post_err _ _ _ _ _ _ (generate_password_post r s) Hrun). Qed.

Lemma drawn_for_in_pool r cls l :
  drawn_for r cls l → Forall (in_candidate_pool r) l.
Proof.
  unfold drawn_for, required_count. intros [Hlen Hall].
  destruct (included r cls) eqn:Hin.
  - eapply Forall_impl; [done|]. intros c Hc. left. by exists cls.
  - destruct l; [constructor | done].
Qed.

Lemma count_in_all alphabet (l : str) :
  Forall (λ c, c ∈ alphabet) l → count_in alphabet l = length l.
Proof.
  unfold count_in. induction 1 as [|c l Hc _ IH]; [done|].
  rewrite filter_cons_True by done. simpl. by rewrite IH.
Qed.

Lemma count_in_app alphabet (l1 l2 : str) :
  count_in alphabet (l1 ++ l2)
  = (count_in alphabet l1 + count_in alphabet l2)%nat.
Proof. unfold count_in. by rewrite filter_app, length_app. Qed.

Lemma count_in_Permutation alphabet (l1 l2 : str) :
  l1 ≡ₚ l2 → count_in alphabet l1 = count_in alphabet l2.
Proof. unfold count_in. by intros ->. Qed.

Lemma not_ambiguous_filtered cls c :
  cls ≠ Special → c ∈ effective_alphabet cls true → c ∉ ambiguous_chars.
Proof.
  intros Hcls Hc. destruct cls; [| | |done];
    by apply list_elem_of_filter in Hc as [? _].
Qed.

Lemma special_not_ambiguous c :
  c ∈ special_chars → c ∉ ambiguous_chars.
Proof.
  revert c. apply Forall_forall.
  apply (bool_decide_unpack _). by vm_compute.
Qed.

Lemma required_and_filler_in_pool r rl ru rd rs filler :
  drawn_for r Lowercase rl → drawn_for r Uppercase ru →
  drawn_for r Digit rd → drawn_for r Special rs →
  Forall (λ c, c ∈ candidate_pool r) filler →
  Forall (in_candidate_pool r) ((rl ++ ru ++ rd ++ rs) ++ filler).
Proof.
  intros Hl Hu Hd Hs Hfill. rewrite !Forall_app.
  split_and!; [by eapply drawn_for_in_pool.. |].
  eapply Forall_impl; [done|]. intros c. apply elem_of_candidate_pool.
Qed.

(** ** The numbers of the analyser as real numbers *)

Lemma ln_2_pos : (0 < ln 2)%R.
Proof. pose proof ln_lt_2. lra. Qed.

Lemma ln_le_iff (x y : R) :
  (0 < x)%R → (0 < y)%R → (x <= y)%R ↔ (ln x <= ln y)%R.
Proof.
  intros Hx Hy. split; intros Hle.
  - destruct (Rle_lt_or_eq_dec _ _ Hle) as [Hlt| ->]; [|lra].
    pose proof (ln_increasing x y Hx Hlt). lra.
  - destruct (Rle_or_lt x y) as [|Hlt]; [done|].
    pose proof (ln_increasing y x Hy Hlt). lra.
Qed.

(** [number_ge] decides the comparison of the real numbers. *)
Lemma number_ge_real n x k :
  (0 < x)%nat → 0 ≤ k →
  number_ge (TimesLog2 n x) k = true ↔ (IZR k <= value (TimesLog2 n x))%R.
Proof.
  intros Hx Hk. unfold number_ge, value.
  rewrite bool_decide_eq_true.
  assert (HxR : (0 < INR x)%R) by by apply lt_0_INR.
  assert (Hpow : (0 < INR x ^ n)%R) by by apply pow_lt.
  assert (H2pow : (0 < 2 ^ Z.to_nat k)%R) by (apply pow_lt; lra).
  pose proof ln_2_pos as Hln2.
  transitivity (2 ^ Z.to_nat k <= INR x ^ n)%R.
  - rewrite INR_IZR_INZ, !pow_IZR, Z2Nat.id by done.
    split; [apply IZR_le | apply le_IZR].
  - rewrite (ln_le_iff _ _ H2pow Hpow), !ln_pow by (done || lra).
    rewrite INR_IZR_INZ, Z2Nat.id by done.
    replace (INR n * (ln (INR x) / ln 2))%R
      with ((INR n * ln (INR x)) / ln 2)%R by (field; lra).
    set (B := (INR n * ln (INR x))%R).
    assert (HB : (B / ln 2 * ln 2 = B)%R) by (field; lra).
    split; intros Hle.
    + apply (Rmult_le_reg_r (ln 2)); [lra|]. rewrite HB. lra.
    + apply (Rmult_le_compat_r (ln 2)) in Hle; [|lra].
      rewrite HB in Hle. lra.
Qed.

Lemma value_times m v : value (times m v) = (INR m * value v)%R.
Proof.
  destruct v as [k|n x]; simpl.
  - by rewrite mult_IZR, INR_IZR_INZ.
  - rewrite mult_INR. ring.
Qed.

(** [ge_times_0_8] decides [u >= n * 0.8] over the real numbers. *)
Lemma ge_times_0_8_real u n :
  ge_times_0_8 u n = true ↔ (INR n * (8 / 10) <= INR u)%R.
Proof.
  unfold ge_times_0_8. rewrite bool_decide_eq_true.
  split; intros Hle.
  - apply le_INR in Hle. rewrite !mult_INR in Hle. simpl in Hle. lra.
  - apply INR_le. rewrite !mult_INR. simpl. lra.
Qed.

Lemma value_8_26 : value (TimesLog2 8 26) = (8 * (ln 26 / ln 2))%R.
Proof. unfold value. by rewrite !INR_IZR_INZ. Qed.

(** 8 * log2(26) lies between 37.6 and 37.7. *)
Lemma entropy_8_lowercase :
  (376 / 10 <= value (TimesLog2 8 26) < 377 / 10)%R.
Proof.
  assert (H10 : value (TimesLog2 80 26) = (10 * value (TimesLog2 8 26))%R).
  { change (TimesLog2 80 26) with (times 10 (TimesLog2 8 26)).
    rewrite value_times. simpl. lra. }
  pose proof (number_ge_real 80 26 376 ltac:(lia) ltac:(lia)) as [Hlo _].
  pose proof (number_ge_real 80 26 377 ltac:(lia) ltac:(lia)) as [_ Hhi].
  split.
  - specialize (Hlo ltac:(by vm_compute)). lra.
  - destruct (Rlt_or_le (value (TimesLog2 8 26)) (377 / 10)) as [|Hge];
      [done|].
    assert (Habs : number_ge (TimesLog2 80 26) 377 = true)
      by (apply Hhi; lra).
    by vm_compute in Habs.
Qed.

Lemma number_ge_60_real v :
  match v with TimesLog2 _ x => (0 < x)%nat | Int _ => True end →
  number_ge v 60 = true ↔ (60 <= value v)%R.
Proof.
  destruct v as [n|n x]; intros Hx.
  - simpl. rewrite bool_decide_eq_true.
    split; [apply IZR_le | apply le_IZR].
  - by apply number_ge_real.
Qed.

(** ** Every run of check_strength *)

Lemma check_strength_locals_parts password :
  check_strength_locals password =
  let len := length password in
  let hl := any_in lowercase password in
  let hu := any_in uppercase password in
  let hd := any_in digits password in
  let hs := any_in special_chars password in
  let unique := size (list_to_set password : gset N) in
  let+ entropy := entropy_of len (pool_size_of hl hu hd hs) in
  Ok {| analysis :=
          {| Analysis.length := len;
             Analysis.has_lowercase := hl;
             Analysis.has_uppercase := hu;
             Analysis.has_digits := hd;
             Analysis.has_special := hs;
             Analysis.has_ambiguous := any_in ambiguous_chars password;
             Analysis.unique_chars := unique;
             Analysis.entropy := entropy;
             Analysis.strength :=
               strength_of (score_of len hl hu hd hs unique entropy) |};
        char_pool_size := pool_size_of hl hu hd hs;
        score := score_of len hl hu hd hs unique entropy |}.
Proof. reflexivity. Qed.

Lemma entropy_of_ok len pool :
  entropy_of len pool
  = Ok (match pool with O => Int 0 | _ => TimesLog2 (len * 1) pool end).
Proof.
  unfold entropy_of. destruct pool as [|p]; [done|].
  by rewrite bool_decide_eq_true_2 by lia.
Qed.

Lemma score_of_count len hl hu hd hs unique entropy :
  score_of len hl hu hd hs unique entropy
  = count_true [bool_decide (8 ≤ len)%nat; bool_decide (12 ≤ len)%nat;
                hl; hu; hd; hs;
                ge_times_0_8 unique len; number_ge entropy 60].
Proof.
  unfold score_of.
  destruct (bool_decide (8 ≤ len)%nat), (bool_decide (12 ≤ len)%nat),
    hl, hu, hd, hs, (ge_times_0_8 unique len), (number_ge entropy 60);
    reflexivity.
Qed.

Lemma count_true_le predicates : (count_true predicates ≤ length predicates)%nat.
Proof. apply length_filter. Qed.

Lemma strength_of_label score :
  (score ≤ 8)%nat →
  ((score ≤ 2)%nat → strength_of score = "Very Weak"%string)
  ∧ ((2 < score ≤ 4)%nat → strength_of score = "Weak"%string)
  ∧ ((4 < score ≤ 6)%nat → strength_of score = "Moderate"%string)
  ∧ (score = 7%nat → strength_of score = "Strong"%string)
  ∧ (score = 8%nat → strength_of score = "Very Strong"%string).
Proof.
  intros Hle.
  do 9 (destruct score as [|score]; [by vm_compute; intuition lia|]). lia.
Qed.

Lemma lowercase_only c :
  c ∈ lowercase → (c ∉ uppercase) ∧ (c ∉ digits) ∧ (c ∉ special_chars).
Proof.
  revert c. apply Forall_forall.
  apply (bool_decide_unpack _). by vm_compute.
Qed.

Lemma any_in_all alphabet (password : str) :
  password ≠ [] → Forall (λ c, c ∈ alphabet) password →
  any_in alphabet password = true.
Proof.
  intros Hne Hall. apply bool_decide_eq_true.
  destruct Hall as [|c l Hc _]; [done|]. by left.
Qed.

Lemma any_in_none alphabet (password : str) :
  Forall (λ c, c ∉ alphabet) password → any_in alphabet password = false.
Proof.
  intros Hall. apply bool_decide_eq_false. intros Hex.
  apply Exists_exists in Hex as (c & Hc & Hin).
  rewrite Forall_forall in Hall. by apply (Hall c).
Qed.

Lemma any_in_present cls (password : str) :
  any_in (reference_alphabet cls) password
  = bool_decide (present cls password).
Proof.
  unfold any_in. apply bool_decide_ext. unfold present.
  by rewrite Exists_exists.
Qed.

Lemma size_list_to_set_remove_dups (l : str) :
  size (list_to_set l : gset N) = length (remove_dups l).
Proof.
  rewrite <-(size_list_to_set (C:=gset N) (remove_dups l))
    by apply NoDup_remove_dups.
  f_equal. apply set_eq. intros x.
  by rewrite !elem_of_list_to_set, elem_of_remove_dups.
Qed.

Lemma pool_size_of_present (password : str) :
  pool_size_of (bool_decide (present Lowercase password))
    (bool_decide (present Uppercase password))
    (bool_decide (present Digit password))
    (bool_decide (present Special password))
  = pool_size password.
Proof.
  unfold pool_size. cbn [fmap list_fmap all_classes].
  repeat (case_decide as H;
          [rewrite (bool_decide_eq_true_2 _ H)
          |rewrite (bool_decide_eq_false_2 _ H)]; clear H);
    reflexivity.
Qed.

(** The value [check_strength] stores under ["entropy"], by the pool
    size. *)
Lemma entropy_value len pool :
  value (match pool with O => Int 0 | S _ => TimesLog2 (len * 1) pool end)
  = if decide (0 < pool)%nat then (INR len * log2 (INR pool))%R else 0%R.
Proof.
  destruct pool as [|p].
  - by rewrite decide_False by lia.
  - rewrite decide_True by lia. unfold value, log2.
    by rewrite Nat.mul_1_r.
Qed.

(** Every field and local variable of [check_strength], from the
    password. *)
Lemma check_strength_locals_inv password :
  let entropy :=
    match pool_size password with
    | O => Int 0
    | S _ => TimesLog2 (length password * 1) (pool_size password)
    end in
  let sc :=
    score_of (length password)
      (bool_decide (present Lowercase password))
      (bool_decide (present Uppercase password))
      (bool_decide (present Digit password))
      (bool_decide (present Special password))
      (distinct_chars password) entropy in
  ∃ l, check_strength_locals password = Ok l
       ∧ check_strength password = Ok (analysis l)
       ∧ Analysis.length (analysis l) = length password
       ∧ Analysis.has_lowercase (analysis l)
         = bool_decide (present Lowercase password)
       ∧ Analysis.has_uppercase (analysis l)
         = bool_decide (present Uppercase password)
       ∧ Analysis.has_digits (analysis l)
         = bool_decide (present Digit password)
       ∧ Analysis.has_special (analysis l)
         = bool_decide (present Special password)
       ∧ Analysis.unique_chars (analysis l) = distinct_chars password
       ∧ Analysis.entropy (analysis l) = entropy
       ∧ Analysis.strength (analysis l) = strength_of sc
       ∧ char_pool_size l = pool_size password
       ∧ score l = sc.
Proof.
  intros entropy sc. subst entropy sc. unfold check_strength.
  rewrite check_strength_locals_parts. cbv zeta.
  rewrite entropy_of_ok. cbn [result_bind].
  change lowercase with (reference_alphabet Lowercase).
  change uppercase with (reference_alphabet Uppercase).
  change digits with (reference_alphabet Digit).
  change special_chars with (reference_alphabet Special).
  rewrite !any_in_present, size_list_to_set_remove_dups,
    pool_size_of_present.
  eexists. split; [reflexivity|]. split; [reflexivity|].
  by split_and!.
Qed.

(** ** Properties of generate_password *)




(** C3, as stated, fails: with letters only, length 4 and minimum counts
    -3 and 5 the length is not below 4, the pool is not empty and the
    minimum counts sum to 2, yet the call raises, because the negative
    count is taken as zero and five characters are required. *)
Lemma raises_with_small_minimum_sum :
  generate_password request_negative_minimum (constant_source 0)
  = (Raise (ValueError (MinimumExceeds 5 4)),
     {| outcome := λ _, 0%nat; consumed := 5 |})
  ∧ ¬ (Request.length request_negative_minimum < 4
       ∨ candidate_pool_empty request_negative_minimum
       ∨ minimum_sum request_negative_minimum
         > Request.length request_negative_minimum).
Proof.
  split; [reflexivity|]. intros [Hlen|[Hpool|Hsum]].
  - vm_compute in Hlen. discriminate Hlen.
  - apply candidate_pool_nil in Hpool. vm_compute in Hpool.
    discriminate Hpool.
  - vm_compute in Hsum. discriminate Hsum.
Qed.

(** C3, amended: [generate_password] raises if and only if the length is
    below 4, or the candidate pool is empty, or the minimum counts of
    the included classes, each negative count taken as zero, sum to more
    than the length; what it raises is a ValueError, and for every
    other request it returns a password. *)
Theorem generate_password_raises_iff r s :
  let fails :=
    Request.length r < 4
    ∨ candidate_pool_empty r
    ∨ clamped_minimum_sum r > Request.length r in
  ((∃ e s', generate_password r s = (Raise e, s')) ↔ fails)
  ∧ ((∃ pw s', generate_password r s = (Ok pw, s')) ↔ ¬ fails)
  ∧ (∀ e s', generate_password r s = (Raise e, s') → ∃ msg, e = ValueError msg).
Proof.
  intros fails. subst fails.
  pose proof (total_required_clamped r) as Htot.
  pose proof (candidate_pool_nil r) as Hnil.
  destruct (generate_password r s) as [[pw|e] s'] eqn:Hrun.
  - apply generate_password_ok_inv in Hrun as (Hlen & Hne & Hmin & _).
    split_and!.
    + split; [by intros (? & ? & ?)|]. intros [?|[?|?]]; [lia | tauto | lia].
    + split; [|by eauto]. intros _ [?|[?|?]]; [lia | tauto | lia].
    + intros ? ? ?. simplify_eq.
  - apply generate_password_err_inv in Hrun
      as [(Hlen & -> & _)|[(Hlen & Hpool & -> & _)|(Hlen & Hne & Hlt & -> & _)]].
    + split_and!; [split; [tauto | eauto] | | intros; simplify_eq; eauto].
      split; [by intros (? & ? & ?) | tauto].
    + split_and!; [split; [tauto | eauto] | | intros; simplify_eq; eauto].
      split; [by intros (? & ? & ?) | tauto].
    + split_and!; [split; [|eauto] | | intros; simplify_eq; eauto].
      * intros _. right; right. lia.
      * split; [by intros (? & ? & ?)|]. intros Hno. destruct Hno.
        right; right. lia.
Qed.

(** C4: a returned password has exactly the requested length. *)
Theorem generate_password_length r s pw s' :
  generate_password r s = (Ok pw, s') →
  Z.of_nat (length pw) = Request.length r.
Proof.
  intros Hrun.
  apply generate_password_ok_inv in Hrun
    as (_ & _ & Hmin & rl & ru & rd & rs & filler & Hpw
        & [Hl _] & [Hu _] & [Hd _] & [Hs _] & _ & Hfill & _).
  rewrite Hpw, !length_app, Hl, Hu, Hd, Hs, Hfill.
  unfold total_required in *. lia.
Qed.

Lemma generate_password_length_witness :
  generate_password Request.default counting_source
  = (Ok (py_str "Bkifjh$lge2a"), {| outcome := λ k, k; consumed := 23 |})
  ∧ Z.of_nat (length (py_str "Bkifjh$lge2a")) = 12.
Proof.
  split; [reflexivity|].
  exact (generate_password_length Request.default counting_source
           (py_str "Bkifjh$lge2a") {| outcome := λ k, k; consumed := 23 |}
           eq_refl).
Defined.

(** C5: for every included class, a returned password has at least the
    class's minimum count of characters of its effective alphabet. *)
Theorem generate_password_minimum_counts r s pw s' cls :
  generate_password r s = (Ok pw, s') →
  included r cls = true →
  minimum r cls ≤ Z.of_nat (count_in (alphabet_of r cls) pw).
Proof.
  intros Hrun Hin.
  apply generate_password_ok_inv in Hrun
    as (_ & _ & _ & rl & ru & rd & rs & filler & Hpw
        & Hl & Hu & Hd & Hs & _).
  rewrite (count_in_Permutation _ _ _ Hpw), !count_in_app.
  assert (Hcount : ∀ l, drawn_for r cls l →
            minimum r cls ≤ Z.of_nat (count_in (alphabet_of r cls) l)).
  { intros l [Hlen Hall]. rewrite (count_in_all _ _ Hall), Hlen.
    unfold required_count. rewrite Hin. lia. }
  destruct cls;
    [specialize (Hcount rl Hl) | specialize (Hcount ru Hu)
    | specialize (Hcount rd Hd) | specialize (Hcount rs Hs)]; lia.
Qed.

Lemma generate_password_minimum_counts_witness :
  generate_password Request.default counting_source
  = (Ok (py_str "Bkifjh$lge2a"), {| outcome := λ k, k; consumed := 23 |})
  ∧ included Request.default Digit = true
  ∧ minimum Request.default Digit
    ≤ Z.of_nat (count_in (alphabet_of Request.default Digit)
                  (py_str "Bkifjh$lge2a")).
Proof.
  split_and!; [reflexivity | reflexivity |].
  exact (generate_password_minimum_counts Request.default counting_source
           (py_str "Bkifjh$lge2a") {| outcome := λ k, k; consumed := 23 |}
           Digit eq_refl eq_refl).
Defined.

(** C6: every character of a returned password belongs to the effective
    alphabet of an included class or to the custom characters. *)
Theorem generate_password_chars_in_pool r s pw s' :
  generate_password r s = (Ok pw, s') →
  ∀ c, c ∈ pw → in_candidate_pool r c.
Proof.
  intros Hrun.
  apply generate_password_ok_inv in Hrun
    as (_ & _ & _ & rl & ru & rd & rs & filler & Hpw
        & Hl & Hu & Hd & Hs & Hfill & _).
  pose proof (required_and_filler_in_pool r _ _ _ _ _ Hl Hu Hd Hs Hfill)
    as Hall.
  rewrite <-Hpw in Hall. by apply Forall_forall.
Qed.

Lemma generate_password_chars_in_pool_witness :
  generate_password request_unambiguous counting_source
  = (Ok (py_str "Bmjfkh$nge4a"), {| outcome := λ k, k; consumed := 23 |})
  ∧ ∀ c, c ∈ py_str "Bmjfkh$nge4a" → in_candidate_pool request_unambiguous c.
Proof.
  split; [reflexivity|].
  exact (generate_password_chars_in_pool request_unambiguous counting_source
           (py_str "Bmjfkh$nge4a") {| outcome := λ k, k; consumed := 23 |}
           eq_refl).
Defined.

(** C7: when the ambiguous characters are excluded, the effective
    alphabets of the lowercase, uppercase and digit classes hold none of
    them, so neither do the required characters drawn for these classes;
    an ambiguous character of a returned password can only be a special
    or a custom character, which are not filtered. *)
Theorem exclude_ambiguous_classes r :
  Request.exclude_ambiguous r = true →
  (∀ cls c, cls ≠ Special → c ∈ alphabet_of r cls → c ∉ ambiguous_chars)
  ∧ alphabet_of r Special = special_chars
  ∧ ∀ s pw s',
      generate_password r s = (Ok pw, s') →
      (∃ rl ru rd rest,
         pw ≡ₚ rl ++ ru ++ rd ++ rest
         ∧ length rl = required_count r Lowercase
         ∧ length ru = required_count r Uppercase
         ∧ length rd = required_count r Digit
         ∧ Forall (λ c, c ∉ ambiguous_chars) (rl ++ ru ++ rd))
      ∧ ∀ c, c ∈ pw → c ∈ ambiguous_chars →
             (included r Special = true ∧ c ∈ special_chars)
             ∨ c ∈ Request.custom_chars r.
Proof.
  intros Hex.
  assert (Hclean : ∀ cls c,
            cls ≠ Special → c ∈ alphabet_of r cls → c ∉ ambiguous_chars).
  { intros cls c Hcls. unfold alphabet_of. rewrite Hex.
    by apply not_ambiguous_filtered. }
  split_and!; [done | done |].
  intros s pw s' Hrun.
  apply generate_password_ok_inv in Hrun
    as (_ & _ & _ & rl & ru & rd & rs & filler & Hpw
        & Hl & Hu & Hd & Hs & Hfill & _).
  split.
  - destruct Hl as [Hl Hl'], Hu as [Hu Hu'], Hd as [Hd Hd'].
    exists rl, ru, rd, (rs ++ filler).
    split_and!; [by rewrite Hpw, <-!(assoc_L (++)) | done..|].
    rewrite !Forall_app. split_and!;
      (eapply Forall_impl; [done|]; intros c; by apply Hclean).
  - intros c Hc Hamb.
    pose proof (required_and_filler_in_pool r _ _ _ _ _ Hl Hu Hd Hs Hfill)
      as Hall.
    rewrite <-Hpw, Forall_forall in Hall.
    destruct (Hall c Hc) as [(cls & Hin & Hcls)|Hcustom]; [|by right].
    destruct (decide (cls = Special)) as [->|Hne]; [by left|].
    by destruct (Hclean cls c Hne Hcls).
Qed.

Lemma exclude_ambiguous_classes_witness :
  Request.exclude_ambiguous request_unambiguous = true
  ∧ (∀ cls c, cls ≠ Special →
       c ∈ alphabet_of request_unambiguous cls → c ∉ ambiguous_chars)
  ∧ alphabet_of request_unambiguous Special = special_chars.
Proof.
  split; [reflexivity|].
  destruct (exclude_ambiguous_classes request_unambiguous eq_refl)
    as (Hclean & Hspecial & _).
  split; [exact Hclean | exact Hspecial].
Defined.

(** C9: a negative minimum count of an included class acts as zero.
    The class's block draws nothing and adds no required character (it
    only adds the alphabet to the pool), the count of required
    characters compared with the length is that of the request with the
    minimum set to zero, and the whole call returns or raises exactly
    as that request does, leaving the random source in the same state. *)
Theorem negative_minimum_as_zero r cls :
  included r cls = true →
  minimum r cls < 0 →
  (∀ pool req s,
     block_of r cls pool req s = (Ok (pool ++ alphabet_of r cls, req), s))
  ∧ required_count r cls = 0%nat
  ∧ total_required r = total_required (with_minimum r cls 0)
  ∧ ∀ s, generate_password r s = generate_password (with_minimum r cls 0) s.
Proof.
  intros Hin Hneg.
  assert (Hnat : Z.to_nat (minimum r cls) = 0%nat) by lia.
  split_and!.
  - intros pool req s. unfold block_of, class_block, for_range.
    rewrite Hin, Hnat. simpl. unfold bind, ret. by rewrite app_nil_r.
  - unfold required_count. by rewrite Hin.
  - unfold total_required, required_count.
    destruct r, cls; simpl in *; rewrite ?Hin, ?Hnat; reflexivity.
  - intros s. unfold generate_password, for_range.
    destruct r, cls; simpl in *; rewrite Hnat; reflexivity.
Qed.

Lemma negative_minimum_as_zero_witness :
  included request_negative_minimum Lowercase = true
  ∧ minimum request_negative_minimum Lowercase < 0
  ∧ required_count request_negative_minimum Lowercase = 0%nat
  ∧ ∀ s, generate_password request_negative_minimum s
         = generate_password
             (with_minimum request_negative_minimum Lowercase 0) s.
Proof.
  split_and!; [reflexivity | reflexivity | |].
  - exact (proj1 (proj2 (negative_minimum_as_zero request_negative_minimum
                           Lowercase eq_refl eq_refl))).
  - exact (proj2 (proj2 (proj2 (negative_minimum_as_zero
                                  request_negative_minimum
                                  Lowercase eq_refl eq_refl)))).
Defined.

(** C10: with the ambiguous characters excluded and no custom
    characters, a returned password has no ambiguous character at all:
    the special characters, though never filtered, contain none. *)
Theorem exclude_ambiguous_no_custom r s pw s' :
  Request.exclude_ambiguous r = true →
  Request.custom_chars r = [] →
  generate_password r s = (Ok pw, s') →
  (∀ c, c ∈ special_chars → c ∉ ambiguous_chars)
  ∧ ∀ c, c ∈ pw → c ∉ ambiguous_chars.
Proof.
  intros Hex Hcustom Hrun. split; [apply special_not_ambiguous|].
  apply generate_password_ok_inv in Hrun
    as (_ & _ & _ & rl & ru & rd & rs & filler & Hpw
        & Hl & Hu & Hd & Hs & Hfill & _).
  pose proof (required_and_filler_in_pool r _ _ _ _ _ Hl Hu Hd Hs Hfill)
    as Hall.
  rewrite <-Hpw, Forall_forall in Hall. intros c Hc.
  destruct (Hall c Hc) as [(cls & Hin & Hcls)|Habs].
  - unfold alphabet_of in Hcls. rewrite Hex in Hcls.
    destruct (decide (cls = Special)) as [->|Hne].
    + by apply special_not_ambiguous.
    + by apply (not_ambiguous_filtered cls).
  - rewrite Hcustom in Habs. by inv Habs.
Qed.

Lemma exclude_ambiguous_no_custom_witness :
  Request.exclude_ambiguous request_unambiguous = true
  ∧ Request.custom_chars request_unambiguous = []
  ∧ generate_password request_unambiguous (constant_source 7)
    = (Ok (py_str "hhh*9Hhhhhhh"),
       {| outcome := λ _, 7%nat; consumed := 23 |})
  ∧ ∀ c, c ∈ py_str "hhh*9Hhhhhhh" → c ∉ ambiguous_chars.
Proof.
  split_and!; [reflexivity | reflexivity | reflexivity |].
  exact (proj2 (exclude_ambiguous_no_custom request_unambiguous
                  (constant_source 7) (py_str "hhh*9Hhhhhhh")
                  {| outcome := λ _, 7%nat; consumed := 23 |}
                  eq_refl eq_refl eq_refl)).
Defined.

(** ** Properties of check_strength *)

(** C2, as stated, fails: for the empty string the score is not 0. *)
Lemma empty_string_score_not_zero :
  ¬ ∃ l, check_strength_locals [] = Ok l
         ∧ Analysis.length (analysis l) = 0%nat
         ∧ char_pool_size l = 0%nat
         ∧ Analysis.entropy (analysis l) = Int 0
         ∧ score l = 0%nat
         ∧ Analysis.strength (analysis l) = "Very Weak"%string.
Proof.
  intros (l & Hl & _ & _ & _ & Hscore & _).
  change (check_strength_locals []) with (Ok empty_locals) in Hl.
  injection Hl as <-. discriminate Hscore.
Qed.

(** C2, amended: for the empty string [check_strength] returns a report
    with length 0, pool size 0, entropy 0 and label "Very Weak", and the
    score is 1, since 0 unique characters are at least 0.8 times the
    length 0; for every string, empty or not, it returns a report and
    does not raise. *)
Theorem check_strength_total :
  check_strength_locals [] = Ok empty_locals
  ∧ check_strength [] = Ok (analysis empty_locals)
  ∧ value (Analysis.entropy (analysis empty_locals)) = 0%R
  ∧ ∀ password, ∃ report, check_strength password = Ok report.
Proof.
  split_and!; [reflexivity | reflexivity | reflexivity |].
  intros password. unfold check_strength.
  rewrite check_strength_locals_parts. cbv zeta.
  rewrite entropy_of_ok. simpl. eauto.
Qed.

(** C8: for every password, the report gives the password's length,
    the presence of each class, the number of distinct characters, the
    pool size and the entropy length x log2(pool size); the score is
    the number of predicates that hold among length >= 8, length >= 12,
    the presence of each of the four classes, distinct characters >=
    0.8 x length and entropy >= 60 bits, so it is at most 8; the label
    is Very Weak up to 2, Weak up to 4, Moderate up to 6, Strong for 7
    and Very Strong for 8.  For eight distinct lowercase letters the
    pool size is 26, the entropy is 8 * log2(26), between 37.6 and 37.7
    bits, the score is 3 and the label is Weak. *)
Theorem check_strength_score password :
  (∃ l bs,
     check_strength_locals password = Ok l
     ∧ check_strength password = Ok (analysis l)
     ∧ Analysis.length (analysis l) = length password
     ∧ (Analysis.has_lowercase (analysis l) = true
        ↔ present Lowercase password)
     ∧ (Analysis.has_uppercase (analysis l) = true
        ↔ present Uppercase password)
     ∧ (Analysis.has_digits (analysis l) = true ↔ present Digit password)
     ∧ (Analysis.has_special (analysis l) = true
        ↔ present Special password)
     ∧ Analysis.unique_chars (analysis l) = distinct_chars password
     ∧ char_pool_size l = pool_size password
     ∧ value (Analysis.entropy (analysis l)) = entropy_bits password
     ∧ tells bs (score_predicates password)
     ∧ score l = count_true bs
     ∧ (score l ≤ 8)%nat
     ∧ ((score l ≤ 2)%nat
        → Analysis.strength (analysis l) = "Very Weak"%string)
     ∧ ((2 < score l ≤ 4)%nat
        → Analysis.strength (analysis l) = "Weak"%string)
     ∧ ((4 < score l ≤ 6)%nat
        → Analysis.strength (analysis l) = "Moderate"%string)
     ∧ (score l = 7%nat
        → Analysis.strength (analysis l) = "Strong"%string)
     ∧ (score l = 8%nat
        → Analysis.strength (analysis l) = "Very Strong"%string))
  ∧ (length password = 8%nat →
     Forall (λ c, c ∈ lowercase) password →
     NoDup password →
     ∃ l, check_strength_locals password = Ok l
          ∧ char_pool_size l = 26%nat
          ∧ Analysis.entropy (analysis l) = TimesLog2 8 26
          ∧ value (Analysis.entropy (analysis l))
            = (8 * (ln 26 / ln 2))%R
          ∧ (376 / 10 <= value (Analysis.entropy (analysis l)) < 377 / 10)%R
          ∧ score l = 3%nat
          ∧ Analysis.strength (analysis l) = "Weak"%string).
Proof.
  split.
  - destruct (check_strength_locals_inv password)
      as (l & Hl & Hrep & Hlen & Hlo & Hup & Hdi & Hsp & Hun & Hent & Hstr
          & Hpool & Hscore).
    set (entropy := match pool_size password with
                    | O => Int 0
                    | S _ => TimesLog2 (length password * 1)
                               (pool_size password)
                    end) in *.
    assert (Hvalue : value entropy = entropy_bits password)
      by apply entropy_value.
    exists l,
      [bool_decide (8 ≤ length password)%nat;
       bool_decide (12 ≤ length password)%nat;
       bool_decide (present Lowercase password);
       bool_decide (present Uppercase password);
       bool_decide (present Digit password);
       bool_decide (present Special password);
       ge_times_0_8 (distinct_chars password) (length password);
       number_ge entropy 60].
    assert (Hle : (score l ≤ 8)%nat).
    { rewrite Hscore, score_of_count. apply count_true_le. }
    rewrite Hlo, Hup, Hdi, Hsp, Hent, Hstr, Hscore, Hvalue in *.
    split_and!; try done; try apply bool_decide_eq_true.
    + unfold tells, score_predicates.
      do 6 (constructor; [apply bool_decide_eq_true|]).
      constructor; [apply ge_times_0_8_real|].
      constructor; [|constructor].
      rewrite <-Hvalue. apply number_ge_60_real. subst entropy.
      destruct (pool_size password); [done | lia].
    + apply score_of_count.
    + by apply strength_of_label.
    + by apply strength_of_label.
    + by apply strength_of_label.
    + by apply strength_of_label.
    + by apply strength_of_label.
  - intros Hlen Hlower Hnodup.
    assert (Hne : password ≠ []) by (by destruct password).
    rewrite check_strength_locals_parts. cbv zeta.
    rewrite (any_in_all lowercase) by done.
    rewrite !any_in_none
      by (eapply Forall_impl; [done|]; intros c Hc; by apply lowercase_only).
    rewrite size_list_to_set, Hlen by done.
    eexists. split; [reflexivity|]. cbn [analysis char_pool_size score
      Analysis.entropy Analysis.strength].
    split; [reflexivity|]. split; [reflexivity|].
    split; [apply value_8_26|]. split; [apply entropy_8_lowercase|].
    split; reflexivity.
Qed.

Lemma check_strength_score_witness :
  length (py_str "abcdefgh") = 8%nat
  ∧ Forall (λ c, c ∈ lowercase) (py_str "abcdefgh")
  ∧ NoDup (py_str "abcdefgh")
  ∧ ∃ l, check_strength_locals (py_str "abcdefgh") = Ok l
         ∧ char_pool_size l = 26%nat
         ∧ Analysis.entropy (analysis l) = TimesLog2 8 26
         ∧ value (Analysis.entropy (analysis l)) = (8 * (ln 26 / ln 2))%R
         ∧ (376 / 10 <= value (Analysis.entropy (analysis l)) < 377 / 10)%R
         ∧ score l = 3%nat
         ∧ Analysis.strength (analysis l) = "Weak"%string.
Proof.
  assert (Hlower : Forall (λ c, c ∈ lowercase) (py_str "abcdefgh"))
    by (apply (bool_decide_unpack _); vm_compute; exact I).
  assert (Hnodup : NoDup (py_str "abcdefgh"))
    by (apply (bool_decide_unpack _); vm_compute; exact I).
  split_and!; [reflexivity | exact Hlower | exact Hnodup |].
  exact (proj2 (check_strength_score (py_str "abcdefgh"))
           eq_refl Hlower Hnodup).
Defined.

(** ** More on generate_password *)

Lemma valid_request_code r :
  valid_request r ↔
  4 ≤ Request.length r ∧ candidate_pool r ≠ []
  ∧ Z.of_nat (total_required r) ≤ Request.length r.
Proof.
  unfold valid_request.
  by rewrite <-candidate_pool_nil, total_required_clamped.
Qed.

Lemma shape_meets r pw rl ru rd rs filler :
  Z.of_nat (total_required r) ≤ Request.length r →
  pw ≡ₚ (rl ++ ru ++ rd ++ rs) ++ filler →
  drawn_for r Lowercase rl → drawn_for r Uppercase ru →
  drawn_for r Digit rd → drawn_for r Special rs →
  Forall (λ c, c ∈ candidate_pool r) filler →
  length filler = Z.to_nat (Request.length r - Z.of_nat (total_required r)) →
  meets r pw.
Proof.
  intros Hmin Hpw Hl Hu Hd Hs Hfill Hlen. split_and!.
  - destruct Hl as [Hl _], Hu as [Hu _], Hd as [Hd _], Hs as [Hs _].
    rewrite Hpw, !length_app, Hl, Hu, Hd, Hs, Hlen.
    unfold total_required in *. lia.
  - pose proof (required_and_filler_in_pool r _ _ _ _ _ Hl Hu Hd Hs Hfill)
      as Hall.
    rewrite <-Hpw in Hall. by apply Forall_forall.
  - intros cls Hin.
    rewrite (count_in_Permutation _ _ _ Hpw), !count_in_app.
    assert (Hcount : ∀ l, drawn_for r cls l →
              minimum r cls ≤ Z.of_nat (count_in (alphabet_of r cls) l)).
    { intros l [Hlen' Hall]. rewrite (count_in_all _ _ Hall), Hlen'.
      unfold required_count. rewrite Hin. lia. }
    destruct cls;
      [specialize (Hcount rl Hl) | specialize (Hcount ru Hu)
      | specialize (Hcount rd Hd) | specialize (Hcount rs Hs)]; lia.
Qed.

(** A valid request succeeds from every state of the source. *)
Lemma generate_password_valid_post r s :
  valid_request r →
  post (generate_password r) s
    (λ pw s', meets r pw ∧ drew (draws_per_password r) s s') never.
Proof.
  intros (Hlen & Hpool & Hmin)%valid_request_code.
  eapply post_mono; [apply generate_password_post | |].
  - intros pw s' (_ & _ & _ & rl & ru & rd & rs & filler & Hpw
                  & Hl & Hu & Hd & Hs & Hfill & Hflen & Hs').
    assert (Hmeets : meets r pw) by by eapply shape_meets.
    split; [done|]. destruct Hmeets as [Hpwlen _].
    unfold draws_per_password.
    replace (Z.to_nat (2 * Request.length r - 1))
      with (total_required r + length filler + (length pw - 1))%nat by lia.
    done.
  - intros e s' [(? & _)|[(_ & ? & _)|(_ & _ & ? & _)]]; [lia | done | lia].
Qed.

(** An invalid request fails from every state of the source. *)
Lemma generate_password_invalid_post r s :
  ¬ valid_request r →
  post (generate_password r) s (λ _ _, False)
    (λ e s', ∃ msg, e = ValueError msg).
Proof.
  intros Hinvalid.
  eapply post_mono; [apply generate_password_post | |].
  - intros pw s' (? & ? & ? & _). destruct Hinvalid.
    by apply valid_request_code.
  - intros e s' [(_ & -> & _)|[(_ & _ & -> & _)|(_ & _ & _ & -> & _)]]; eauto.
Qed.

(** X1: a call that returns a password has consumed exactly
    2 * length - 1 values of the random source, whatever the classes
    and minimum counts: one for each character and one for each of the
    length - 1 steps of the shuffle. *)
Theorem generate_password_draws r s pw s' :
  generate_password r s = (Ok pw, s') →
  outcome s' = outcome s
  ∧ Z.of_nat (consumed s') = Z.of_nat (consumed s) + 2 * Request.length r - 1.
Proof.
  intros Hrun.
  assert (Hvalid : valid_request r).
  { apply valid_request_code.
    by apply generate_password_ok_inv in Hrun as (? & ? & ? & _). }
  pose proof (generate_password_valid_post r s Hvalid) as Hpost.
  destruct (post_ok _ _ _ _ _ _ Hpost Hrun) as [_ [Hout Hcons]].
  destruct Hvalid as [Hlen _]. unfold draws_per_password in Hcons.
  split; [done | lia].
Qed.

Lemma generate_password_draws_witness :
  generate_password Request.default counting_source
  = (Ok (py_str "Bkifjh$lge2a"), {| outcome := λ k, k; consumed := 23 |})
  ∧ Z.of_nat 23 = Z.of_nat 0 + 2 * 12 - 1.
Proof.
  split; [reflexivity|].
  exact (proj2 (generate_password_draws Request.default counting_source
                  (py_str "Bkifjh$lge2a")
                  {| outcome := λ k, k; consumed := 23 |} eq_refl)).
Defined.

(** X2: the minimum count of a class that is not included is ignored:
    whatever its value, the call behaves as with any other value. *)
Theorem excluded_minimum_ignored r cls m s :
  included r cls = false →
  generate_password (with_minimum r cls m) s = generate_password r s.
Proof.
  intros Hin. unfold generate_password.
  destruct r, cls; simpl in *; subst; reflexivity.
Qed.

Lemma excluded_minimum_ignored_witness :
  included request_negative_minimum Digit = false
  ∧ ∀ s, generate_password (with_minimum request_negative_minimum Digit 99) s
         = generate_password request_negative_minimum s.
Proof.
  split; [reflexivity|]. intros s.
  exact (excluded_minimum_ignored request_negative_minimum Digit 99 s eq_refl).
Defined.

Lemma effective_alphabets_disjoint cls1 cls2 exclude c :
  cls1 ≠ cls2 →
  c ∈ effective_alphabet cls1 exclude → c ∉ effective_alphabet cls2 exclude.
Proof.
  intros Hne. revert c. apply Forall_forall.
  destruct cls1, cls2; try done; destruct exclude;
    apply (bool_decide_unpack _); by vm_compute.
Qed.

Lemma count_in_none alphabet (l : str) :
  Forall (λ c, c ∉ alphabet) l → count_in alphabet l = 0%nat.
Proof.
  unfold count_in. induction 1 as [|c l Hc _ IH]; [done|].
  by rewrite filter_cons_False.
Qed.

Lemma count_in_drawn_for r cls cls' l :
  drawn_for r cls' l →
  count_in (alphabet_of r cls) l
  = if decide (cls = cls') then required_count r cls else 0%nat.
Proof.
  intros [Hlen Hall]. case_decide as Hcls.
  - subst cls'. by rewrite count_in_all.
  - apply count_in_none. eapply Forall_impl; [done|].
    intros c Hc. by apply (effective_alphabets_disjoint cls' cls).
Qed.

(** X3: when the minimum counts of the included classes (negative ones
    taken as zero) add up to the length, nothing is left to chance but
    the characters themselves: the password has exactly the minimum
    count of characters of every included class and none of a class
    that is not included, custom characters or not. *)
Theorem generate_password_exact_counts r s pw s' cls :
  generate_password r s = (Ok pw, s') →
  clamped_minimum_sum r = Request.length r →
  Z.of_nat (count_in (alphabet_of r cls) pw)
  = if included r cls then Z.max 0 (minimum r cls) else 0.
Proof.
  intros Hrun Hsum. rewrite <-total_required_clamped in Hsum.
  apply generate_password_ok_inv in Hrun
    as (_ & _ & _ & rl & ru & rd & rs & filler & Hpw
        & Hl & Hu & Hd & Hs & _ & Hfill & _).
  assert (filler = []) as -> by (apply length_zero_iff_nil; lia).
  rewrite (count_in_Permutation _ _ _ Hpw), !count_in_app.
  rewrite (count_in_drawn_for r cls Lowercase rl Hl),
    (count_in_drawn_for r cls Uppercase ru Hu),
    (count_in_drawn_for r cls Digit rd Hd),
    (count_in_drawn_for r cls Special rs Hs).
  unfold count_in, required_count.
  destruct cls; repeat case_decide; try done;
    simpl; case_match; lia.
Qed.

Lemma generate_password_exact_counts_witness :
  let r := with_minimum (with_minimum Request.default Lowercase 5) Digit 5 in
  generate_password r counting_source
  = (Ok (py_str "b08F97d_6eca"), {| outcome := λ k, k; consumed := 23 |})
  ∧ clamped_minimum_sum r = Request.length r
  ∧ Z.of_nat (count_in (alphabet_of r Digit) (py_str "b08F97d_6eca")) = 5.
Proof.
  intros r. split_and!; [reflexivity | reflexivity |].
  exact (generate_password_exact_counts r counting_source
           (py_str "b08F97d_6eca") {| outcome := λ k, k; consumed := 23 |}
           Digit eq_refl eq_refl).
Defined.

(** ** generate_multiple *)

Lemma post_repeat_draw_each {A} (P : A → Prop) (e : M A) k n s :
  (∀ s0, post e s0 (λ a s', P a ∧ drew k s0 s') never) →
  post (repeat_draw n e) s
    (λ l s', length l = n ∧ Forall P l ∧ drew (n * k) s s') never.
Proof.
  intros He. revert s. induction n as [|n IH]; intros s; simpl.
  - apply post_ret. split_and!; [done | constructor | apply drew_refl].
  - apply post_bind. eapply post_mono; [apply He | | done].
    intros a s1 [Ha Hs1]. apply post_bind.
    eapply post_mono; [apply IH | | done].
    intros l s2 (Hlen & Hl & Hs2). apply post_ret.
    split_and!; [simpl; lia | by constructor |].
    by apply (drew_trans k (n * k) s s1 s2).
Qed.

Lemma repeat_draw_ext {A} (e1 e2 : M A) n s :
  (∀ s0, e1 s0 = e2 s0) → repeat_draw n e1 s = repeat_draw n e2 s.
Proof.
  intros Hext. revert s. induction n as [|n IH]; intros s; [done|].
  simpl. unfold bind. rewrite Hext.
  destruct (e2 s) as [[a|e] s1]; [|done]. by rewrite IH.
Qed.

Lemma repeat_draw_first_raises {A} (e : M A) n s err s' :
  e s = (Raise err, s') → repeat_draw (S n) e s = (Raise err, s').
Proof. intros Hrun. simpl. unfold bind. by rewrite Hrun. Qed.

(** X4: when [generate_multiple] returns, it returns [count] passwords
    (none for a count below 1), each of the requested length, made of
    characters of the candidate pool and with the minimum count of
    every included class, and it has consumed [2 * length - 1] values of
    the random source for each of them. *)
Theorem generate_multiple_passwords count r s pws s' :
  generate_multiple count r s = (Ok pws, s') →
  length pws = Z.to_nat count
  ∧ Forall (meets r) pws
  ∧ outcome s' = outcome s
  ∧ consumed s' = (consumed s + Z.to_nat count * draws_per_password r)%nat.
Proof.
  unfold generate_multiple, for_range.
  destruct (Z.to_nat count) as [|n] eqn:Hcount.
  { intros [= <- <-]. split_and!; [done | constructor | done | simpl; lia]. }
  intros Hrun.
  assert (Hvalid : valid_request r).
  { destruct (generate_password r s) as [[pw|e] s1] eqn:Hfirst.
    - apply valid_request_code.
      by apply generate_password_ok_inv in Hfirst as (? & ? & ? & _).
    - by rewrite (repeat_draw_first_raises _ n s e s1 Hfirst) in Hrun. }
  pose proof (post_repeat_draw_each (meets r) (generate_password r)
                (draws_per_password r) (S n) s
                (λ s0, generate_password_valid_post r s0 Hvalid)) as Hpost.
  destruct (post_ok _ _ _ _ _ _ Hpost Hrun) as (Hlen & Hall & Hout & Hcons).
  done.
Qed.

Lemma generate_multiple_passwords_witness :
  generate_multiple 2 (with_minimum request_minimum_five Lowercase 1)
    counting_source
  = (Ok [py_str "B$2a"; py_str "9Ih-"],
     {| outcome := λ k, k; consumed := 14 |})
  ∧ Forall (meets (with_minimum request_minimum_five Lowercase 1))
      [py_str "B$2a"; py_str "9Ih-"]
  ∧ 14%nat = (0 + Z.to_nat 2
                  * draws_per_password
                      (with_minimum request_minimum_five Lowercase 1))%nat.
Proof.
  split; [reflexivity|].
  destruct (generate_multiple_passwords 2
              (with_minimum request_minimum_five Lowercase 1)
              counting_source [py_str "B$2a"; py_str "9Ih-"]
              {| outcome := λ k, k; consumed := 14 |} eq_refl)
    as (_ & Hall & _ & Hcons).
  split; [exact Hall | exact Hcons].
Defined.

(** X5: a count below 1 asks for nothing and checks nothing: the result
    is the empty list and no value of the random source is consumed,
    even for a request that [generate_password] would reject. *)
Theorem generate_multiple_no_passwords count r s :
  count ≤ 0 → generate_multiple count r s = (Ok [], s).
Proof.
  intros Hcount. unfold generate_multiple, for_range.
  by replace (Z.to_nat count) with 0%nat by lia.
Qed.

Lemma generate_multiple_no_passwords_witness :
  ¬ valid_request request_minimum_five
  ∧ generate_multiple (-2) request_minimum_five counting_source
    = (Ok [], counting_source).
Proof.
  split.
  - intros (_ & _ & Hsum). vm_compute in Hsum. by apply Hsum.
  - exact (generate_multiple_no_passwords (-2) request_minimum_five
             counting_source ltac:(done)).
Defined.

(** X6: for a count of at least 1, [generate_multiple] fails exactly
    when [generate_password] does, and then as its first call: with the
    same ValueError and the same values consumed; no password of an
    earlier call is lost, because no call can succeed before one that
    fails. *)
Theorem generate_multiple_fails_first count r s :
  0 < count →
  (valid_request r → ∃ pws s', generate_multiple count r s = (Ok pws, s'))
  ∧ (¬ valid_request r →
     ∃ msg s',
       generate_password r s = (Raise (ValueError msg), s')
       ∧ generate_multiple count r s = (Raise (ValueError msg), s')).
Proof.
  intros Hcount. unfold generate_multiple, for_range.
  destruct (Z.to_nat count) as [|n] eqn:Hn; [lia|]. split.
  - intros Hvalid.
    pose proof (post_repeat_draw_each (meets r) (generate_password r)
                  (draws_per_password r) (S n) s
                  (λ s0, generate_password_valid_post r s0 Hvalid)) as Hpost.
    apply post_never in Hpost as (pws & s' & Hrun & _). eauto.
  - intros Hinvalid.
    pose proof (generate_password_invalid_post r s Hinvalid) as Hpost.
    destruct (generate_password r s) as [[pw|e] s1] eqn:Hfirst.
    + destruct (post_ok _ _ _ _ _ _ Hpost Hfirst).
    + destruct (post_err _ _ _ _ _ _ Hpost Hfirst) as [msg ->].
      exists msg, s1. split; [done|].
      by apply repeat_draw_first_raises.
Qed.

Lemma generate_multiple_fails_first_witness :
  0 < 3
  ∧ ¬ valid_request request_minimum_five
  ∧ ∃ msg s',
      generate_password request_minimum_five counting_source
      = (Raise (ValueError msg), s')
      ∧ generate_multiple 3 request_minimum_five counting_source
        = (Raise (ValueError msg), s').
Proof.
  assert (Hinvalid : ¬ valid_request request_minimum_five).
  { intros (_ & _ & Hsum). vm_compute in Hsum. by apply Hsum. }
  split_and!; [reflexivity | exact Hinvalid |].
  exact (proj2 (generate_multiple_fails_first 3 request_minimum_five
                  counting_source eq_refl) Hinvalid).
Defined.

(** X7: [main] replaces the minimum count of a switched-off class by 0
    before the call, and this changes nothing: generation behaves as if
    the minimum counts of the command line were passed on as they
    are. *)
Theorem main_forced_minimum_unobservable args s :
  main_generate args s
  = generate_multiple (Args.count args) (unforced_kwargs args) s.
Proof.
  unfold main_generate, generate_multiple, for_range.
  apply repeat_draw_ext. intros s0. unfold generate_password.
  destruct args as [? ? [] [] [] [] ? ? ? ? ? ? ? ? ? ? ?]; reflexivity.
Qed.

(** ** More on check_strength *)

Lemma check_strength_report password :
  ∃ l, check_strength_locals password = Ok l
       ∧ check_strength password = Ok (analysis l).
Proof.
  unfold check_strength. rewrite check_strength_locals_parts. cbv zeta.
  rewrite entropy_of_ok. cbn [result_bind]. eauto.
Qed.

Lemma any_in_Permutation alphabet (p1 p2 : str) :
  p1 ≡ₚ p2 → any_in alphabet p1 = any_in alphabet p2.
Proof. intros Hp. unfold any_in. apply bool_decide_ext. by rewrite Hp. Qed.

(** X8: the report depends on the characters of the password and not
    on their order: every rearrangement gets the same report, so the
    shuffle that ends [generate_password] has no influence on the
    rating. *)
Theorem check_strength_permutation (p1 p2 : str) :
  p1 ≡ₚ p2 → check_strength p1 = check_strength p2.
Proof.
  intros Hp. unfold check_strength.
  rewrite !check_strength_locals_parts. cbv zeta.
  rewrite !(any_in_Permutation _ p1 p2 Hp).
  rewrite (Permutation_length Hp).
  by rewrite (list_to_set_perm_L (C:=gset N) p1 p2 Hp).
Qed.

Lemma check_strength_permutation_witness :
  py_str "pass1234" ≡ₚ py_str "4s3a2p1s"
  ∧ check_strength (py_str "pass1234") = check_strength (py_str "4s3a2p1s").
Proof.
  assert (Hp : py_str "pass1234" ≡ₚ py_str "4s3a2p1s")
    by (apply (bool_decide_unpack _); vm_compute; exact I).
  split; [exact Hp|].
  exact (check_strength_permutation _ _ Hp).
Defined.

Lemma length_remove_dups_le (l : str) :
  (length (remove_dups l) ≤ length l)%nat.
Proof.
  induction l as [|x l IH]; [done|]. simpl.
  case_decide; simpl; lia.
Qed.

Lemma length_remove_dups_eq (l : str) :
  length (remove_dups l) = length l ↔ NoDup l.
Proof.
  split.
  - induction l as [|x l IH]; [constructor|]. simpl.
    pose proof (length_remove_dups_le l).
    case_decide; simpl; [lia|]. intros [= Hlen].
    constructor; [done | by apply IH].
  - induction 1 as [|x l Hx _ IH]; [done|]. simpl.
    case_decide; [done|]. simpl. by rewrite IH.
Qed.

(** X9: the number of unique characters of a report never exceeds the
    length, and equals it exactly when no character is repeated; a
    password without repeated characters therefore always satisfies
    the uniqueness predicate of the score. *)
Theorem check_strength_unique_chars password :
  ∃ a, check_strength password = Ok a
       ∧ Analysis.length a = length password
       ∧ (Analysis.unique_chars a ≤ Analysis.length a)%nat
       ∧ (Analysis.unique_chars a = Analysis.length a ↔ NoDup password)
       ∧ (NoDup password →
          ge_times_0_8 (Analysis.unique_chars a) (Analysis.length a) = true).
Proof.
  unfold check_strength. rewrite check_strength_locals_parts. cbv zeta.
  rewrite entropy_of_ok. cbn [result_bind]. eexists. split; [reflexivity|].
  cbn [analysis Analysis.length Analysis.unique_chars].
  rewrite size_list_to_set_remove_dups.
  split_and!; [done | apply length_remove_dups_le
              | apply length_remove_dups_eq |].
  intros Hnodup%length_remove_dups_eq. rewrite Hnodup.
  apply bool_decide_eq_true. lia.
Qed.

Lemma pool_size_of_le hl hu hd hs : (pool_size_of hl hu hd hs ≤ 88)%nat.
Proof. destruct hl, hu, hd, hs; vm_compute; lia. Qed.

Lemma pool_size_of_all : pool_size_of true true true true = 88%nat.
Proof. reflexivity. Qed.

Lemma number_ge_60_short len pool :
  (len < 8)%nat → (pool ≤ 88)%nat →
  number_ge (match pool with
             | O => Int 0
             | S _ => TimesLog2 (len * 1) pool
             end) 60 = false.
Proof.
  intros Hlen Hpool. destruct pool as [|p]; [done|].
  apply bool_decide_eq_false. apply Z.lt_nge.
  apply Z.le_lt_trans with (88 ^ 7); [|done].
  transitivity (88 ^ Z.of_nat (len * 1)).
  - apply Z.pow_le_mono_l. lia.
  - apply Z.pow_le_mono_r; lia.
Qed.

Lemma number_ge_60_long len :
  (12 ≤ len)%nat → number_ge (TimesLog2 (len * 1) 88) 60 = true.
Proof.
  intros Hlen. apply bool_decide_eq_true.
  transitivity (88 ^ 12); [done|].
  apply Z.pow_le_mono_r; lia.
Qed.

Lemma strength_of_cases score :
  (strength_of score = "Very Strong"%string ↔ (7 < score)%nat)
  ∧ (strength_of score = "Strong"%string ↔ score = 7%nat)
  ∧ ((score ≤ 6)%nat →
     strength_of score = "Very Weak"%string
     ∨ strength_of score = "Weak"%string
     ∨ strength_of score = "Moderate"%string).
Proof.
  unfold strength_of. repeat case_bool_decide;
    (split_and!; [split; (done || lia) | split; (done || lia) | ]);
    (lia || tauto).
Qed.

Lemma count_true_flags (b1 b2 hl hu hd hs u e : bool) :
  (count_true [b1; b2; hl; hu; hd; hs; u; e]
   ≤ 4 + count_true [hl; hu; hd; hs])%nat
  ∧ ((7 < count_true [b1; b2; hl; hu; hd; hs; u; e])%nat
     ↔ b1 = true ∧ b2 = true ∧ hl = true ∧ hu = true ∧ hd = true
       ∧ hs = true ∧ u = true ∧ e = true).
Proof.
  destruct b1, b2, hl, hu, hd, hs, u, e; vm_compute;
    (split; [lia | split;
       [intros Hlt; first [by split_and! | lia]
       | intros (? & ? & ? & ? & ? & ? & ? & ?); first [done | lia]]]).
Qed.

(** X10: a password of fewer than 8 characters is never rated above
    Moderate, whatever it contains: its estimated entropy stays below
    60 bits (at most 7 * log2(88)) and its score is at most 5. *)
Theorem check_strength_short password :
  (length password < 8)%nat →
  ∃ l, check_strength_locals password = Ok l
       ∧ check_strength password = Ok (analysis l)
       ∧ (value (Analysis.entropy (analysis l)) < 60)%R
       ∧ (score l ≤ 5)%nat
       ∧ (Analysis.strength (analysis l) = "Very Weak"%string
          ∨ Analysis.strength (analysis l) = "Weak"%string
          ∨ Analysis.strength (analysis l) = "Moderate"%string).
Proof.
  intros Hlen. unfold check_strength.
  rewrite check_strength_locals_parts. cbv zeta.
  rewrite entropy_of_ok. cbn [result_bind].
  set (hl := any_in lowercase password).
  set (hu := any_in uppercase password).
  set (hd := any_in digits password).
  set (hs := any_in special_chars password).
  set (unique := size (list_to_set password : gset N)).
  pose proof (pool_size_of_le hl hu hd hs) as Hpool.
  pose proof (number_ge_60_short _ _ Hlen Hpool) as Hent.
  set (entropy := match pool_size_of hl hu hd hs with
                  | O => Int 0
                  | S _ => TimesLog2 (length password * 1)
                             (pool_size_of hl hu hd hs)
                  end) in *.
  eexists. split; [reflexivity|]. split; [reflexivity|].
  cbn [analysis score Analysis.entropy Analysis.strength].
  assert (Hscore : (score_of (length password) hl hu hd hs unique entropy
                    ≤ 5)%nat).
  { rewrite score_of_count, Hent.
    rewrite !bool_decide_eq_false_2 by lia.
    destruct hl, hu, hd, hs, (ge_times_0_8 unique (length password));
      vm_compute; lia. }
  split_and!; [| done | apply strength_of_cases; lia].
  apply Rnot_le_lt. intros Hge.
  apply number_ge_60_real in Hge; [congruence|].
  subst entropy. destruct (pool_size_of hl hu hd hs); [done | lia].
Qed.

Lemma check_strength_short_witness :
  (length (py_str "aB3$xY9") < 8)%nat
  ∧ ∃ l, check_strength_locals (py_str "aB3$xY9") = Ok l
         ∧ (score l ≤ 5)%nat
         ∧ Analysis.strength (analysis l) = "Moderate"%string.
Proof.
  split; [vm_compute; lia|].
  destruct (check_strength_short (py_str "aB3$xY9") ltac:(vm_compute; lia))
    as (l & Hl & _ & _ & Hscore & _).
  exists l. split; [exact Hl|]. split; [exact Hscore|].
  change (check_strength_locals (py_str "aB3$xY9"))
    with (Ok {| analysis :=
                  {| Analysis.length := 7;
                     Analysis.has_lowercase := true;
                     Analysis.has_uppercase := true;
                     Analysis.has_digits := true;
                     Analysis.has_special := true;
                     Analysis.has_ambiguous := false;
                     Analysis.unique_chars := 7;
                     Analysis.entropy := TimesLog2 7 88;
                     Analysis.strength := "Moderate" |};
                char_pool_size := 88;
                score := 5 |}) in Hl.
  injection Hl as <-. reflexivity.
Defined.

(** X11: the label is Very Strong exactly for a password of at least 12
    characters that has a lowercase letter, an uppercase letter, a
    digit and a special character and whose distinct characters are at
    least 0.8 times its length; the entropy predicate then holds by
    itself. *)
Theorem check_strength_very_strong password :
  ∃ a, check_strength password = Ok a
       ∧ (Analysis.strength a = "Very Strong"%string
          ↔ (12 ≤ length password)%nat
            ∧ present Lowercase password
            ∧ present Uppercase password
            ∧ present Digit password
            ∧ present Special password
            ∧ (4 * length password ≤ 5 * distinct_chars password)%nat).
Proof.
  destruct (check_strength_locals_inv password)
    as (l & _ & Hrep & _ & _ & _ & _ & _ & _ & _ & Hstr & _ & _).
  exists (analysis l). split; [done|]. rewrite Hstr.
  rewrite (proj1 (strength_of_cases _)), score_of_count.
  rewrite (proj2 (count_true_flags _ _ _ _ _ _ _ _)).
  unfold ge_times_0_8. rewrite !bool_decide_eq_true. split.
  - intros (_ & ? & ? & ? & ? & ? & ? & _). done.
  - intros (Hlen & Hlo & Hup & Hdi & Hsp & Hu).
    split_and!; [lia | done..|].
    rewrite <-pool_size_of_present.
    rewrite !bool_decide_eq_true_2 by done. rewrite pool_size_of_all.
    by apply number_ge_60_long.
Qed.

(** X12: a rating of Strong or Very Strong needs characters of at least
    three of the four classes: the score is at most 4 plus the number of
    classes present in the password, so a password with characters of
    one or two classes never gets beyond Moderate. *)
Theorem check_strength_classes_needed password :
  ∃ l, check_strength_locals password = Ok l
       ∧ check_strength password = Ok (analysis l)
       ∧ (score l ≤ 4 + classes_in password)%nat
       ∧ (Analysis.strength (analysis l) = "Strong"%string
          ∨ Analysis.strength (analysis l) = "Very Strong"%string →
          (3 ≤ classes_in password)%nat)
       ∧ ((classes_in password ≤ 2)%nat →
          Analysis.strength (analysis l) = "Very Weak"%string
          ∨ Analysis.strength (analysis l) = "Weak"%string
          ∨ Analysis.strength (analysis l) = "Moderate"%string).
Proof.
  destruct (check_strength_locals_inv password)
    as (l & Hl & Hrep & _ & _ & _ & _ & _ & _ & _ & Hstr & _ & Hscore).
  exists l. split; [done|]. split; [done|].
  rewrite Hstr, Hscore, score_of_count. unfold classes_in.
  cbn [all_classes fmap list_fmap].
  match goal with
  | |- context [count_true [?b1; ?b2; ?hl; ?hu; ?hd; ?hs; ?u; ?e]] =>
      pose proof (proj1 (count_true_flags b1 b2 hl hu hd hs u e)) as Hle;
      set (sc := count_true [b1; b2; hl; hu; hd; hs; u; e]) in *
  end.
  split; [done|]. split.
  - rewrite (proj1 (strength_of_cases sc)),
      (proj1 (proj2 (strength_of_cases sc))). lia.
  - intros Hfew. apply strength_of_cases. lia.
Qed.

(** ** The analyser on the generator's passwords *)

Lemma generate_password_meets r s pw s' :
  generate_password r s = (Ok pw, s') → meets r pw.
Proof.
  intros Hrun.
  apply generate_password_ok_inv in Hrun
    as (_ & _ & Hmin & rl & ru & rd & rs & filler & Hpw
        & Hl & Hu & Hd & Hs & Hfill & Hflen & _).
  by eapply shape_meets.
Qed.

Lemma effective_in_reference cls exclude c :
  c ∈ effective_alphabet cls exclude → c ∈ reference_alphabet cls.
Proof.
  destruct cls, exclude; simpl; try done;
    by intros [_ ?]%list_elem_of_filter.
Qed.

Lemma reference_alphabets_disjoint cls1 cls2 c :
  c ∈ reference_alphabet cls1 → c ∈ reference_alphabet cls2 → cls1 = cls2.
Proof.
  intros H1 H2. destruct (decide (cls1 = cls2)) as [|Hne]; [done|].
  destruct (effective_alphabets_disjoint cls1 cls2 false c Hne).
  - by destruct cls1.
  - by destruct cls2.
Qed.

Lemma count_in_pos alphabet (l : str) :
  (0 < count_in alphabet l)%nat → Exists (λ c, c ∈ alphabet) l.
Proof.
  unfold count_in. intros Hpos.
  destruct (filter (λ c, c ∈ alphabet) l) as [|c l'] eqn:Hf; [simpl in Hpos; lia|].
  assert (Hc : c ∈ filter (λ c, c ∈ alphabet) l) by (rewrite Hf; left).
  apply list_elem_of_filter in Hc as [Hc Hin].
  apply Exists_exists. eauto.
Qed.

Lemma check_strength_fields password :
  ∃ a, check_strength password = Ok a
       ∧ Analysis.length a = length password
       ∧ (∀ cls, has_class a cls = any_in (reference_alphabet cls) password)
       ∧ Analysis.has_ambiguous a = any_in ambiguous_chars password.
Proof.
  unfold check_strength. rewrite check_strength_locals_parts. cbv zeta.
  rewrite entropy_of_ok. cbn [result_bind].
  eexists. split; [reflexivity|]. split_and!; [done | | done].
  by intros [].
Qed.

Lemma meets_has_class r pw cls :
  meets r pw → included r cls = true → 1 ≤ minimum r cls →
  any_in (reference_alphabet cls) pw = true.
Proof.
  intros (_ & _ & Hcount) Hin Hmin. apply bool_decide_eq_true.
  specialize (Hcount cls Hin).
  assert (Hpos : (0 < count_in (alphabet_of r cls) pw)%nat) by lia.
  eapply Exists_impl; [by apply count_in_pos|].
  intros c. apply effective_in_reference.
Qed.

(** X13: the report on a generated password agrees with the request: it
    has the requested length; every included class with a minimum
    count of at least 1 is found; without custom characters no class is
    found that was not included; and with the ambiguous characters
    excluded and no custom characters, none is found. *)
Theorem check_strength_of_generated r s pw s' :
  generate_password r s = (Ok pw, s') →
  ∃ a, check_strength pw = Ok a
       ∧ Z.of_nat (Analysis.length a) = Request.length r
       ∧ (∀ cls, included r cls = true → 1 ≤ minimum r cls →
                 has_class a cls = true)
       ∧ (Request.custom_chars r = [] →
          ∀ cls, has_class a cls = true → included r cls = true)
       ∧ (Request.exclude_ambiguous r = true →
          Request.custom_chars r = [] →
          Analysis.has_ambiguous a = false).
Proof.
  intros Hmeets%generate_password_meets.
  pose proof Hmeets as (Hlen & Hpool & _).
  destruct (check_strength_fields pw) as (a & Ha & Halen & Hflags & Hamb).
  exists a. split; [done|]. split_and!.
  - by rewrite Halen.
  - intros cls Hin Hmin. rewrite Hflags. by eapply meets_has_class.
  - intros Hcustom cls. rewrite Hflags.
    intros (c & Hc & Href)%bool_decide_eq_true%Exists_exists.
    destruct (Hpool c Hc) as [(cls' & Hin & Hcls')|Habs].
    + apply effective_in_reference in Hcls'.
      by rewrite (reference_alphabets_disjoint cls cls' c Href Hcls').
    + rewrite Hcustom in Habs. by inv Habs.
  - intros Hex Hcustom. rewrite Hamb. apply any_in_none.
    apply Forall_forall. intros c Hc.
    destruct (Hpool c Hc) as [(cls & Hin & Hcls)|Habs].
    + unfold alphabet_of in Hcls. rewrite Hex in Hcls.
      destruct (decide (cls = Special)) as [->|Hne].
      * by apply special_not_ambiguous.
      * by apply (not_ambiguous_filtered cls).
    + rewrite Hcustom in Habs. by inv Habs.
Qed.

Lemma check_strength_of_generated_witness :
  generate_password request_unambiguous counting_source
  = (Ok (py_str "Bmjfkh$nge4a"), {| outcome := λ k, k; consumed := 23 |})
  ∧ ∃ a, check_strength (py_str "Bmjfkh$nge4a") = Ok a
         ∧ Z.of_nat (Analysis.length a) = 12
         ∧ Analysis.has_ambiguous a = false.
Proof.
  split; [reflexivity|].
  destruct (check_strength_of_generated request_unambiguous counting_source
              (py_str "Bmjfkh$nge4a")
              {| outcome := λ k, k; consumed := 23 |} eq_refl)
    as (a & Ha & Hlen & _ & _ & Hamb).
  exists a. split; [exact Ha|]. split; [exact Hlen|].
  exact (Hamb eq_refl eq_refl).
Defined.

(** X14: a password generated with all four classes included, a
    minimum count of at least 1 for each and a length of at least 12
    (the defaults, for one) is always rated Strong or Very Strong,
    whatever the random source gives: the inferred pool has 88
    characters, the entropy is at least 60 bits and the score is at
    least 7. *)
Theorem generated_password_rating r s pw s' :
  generate_password r s = (Ok pw, s') →
  (∀ cls, included r cls = true ∧ 1 ≤ minimum r cls) →
  12 ≤ Request.length r →
  ∃ l, check_strength_locals pw = Ok l
       ∧ check_strength pw = Ok (analysis l)
       ∧ char_pool_size l = 88%nat
       ∧ (60 <= value (Analysis.entropy (analysis l)))%R
       ∧ (7 ≤ score l)%nat
       ∧ (Analysis.strength (analysis l) = "Strong"%string
          ∨ Analysis.strength (analysis l) = "Very Strong"%string).
Proof.
  intros Hmeets%generate_password_meets Hall Hlong.
  assert (Hfl : ∀ cls, any_in (reference_alphabet cls) pw = true).
  { intros cls. destruct (Hall cls) as [Hin Hmin].
    by eapply meets_has_class. }
  assert (Hpwlen : (12 ≤ length pw)%nat).
  { destruct Hmeets as (Hlen & _). lia. }
  pose proof (Hfl Lowercase) as Hl. pose proof (Hfl Uppercase) as Hu.
  pose proof (Hfl Digit) as Hd. pose proof (Hfl Special) as Hs.
  simpl in Hl, Hu, Hd, Hs.
  unfold check_strength. rewrite check_strength_locals_parts. cbv zeta.
  rewrite Hl, Hu, Hd, Hs, entropy_of_ok, pool_size_of_all.
  cbn [result_bind].
  eexists. split; [reflexivity|]. split; [reflexivity|].
  cbn [analysis score char_pool_size Analysis.entropy Analysis.strength].
  pose proof (number_ge_60_long _ Hpwlen) as Hent.
  assert (Hscore : (7 ≤ score_of (length pw) true true true true
                          (size (list_to_set pw : gset N))
                          (TimesLog2 (length pw * 1) 88))%nat).
  { rewrite score_of_count, Hent.
    rewrite !bool_decide_eq_true_2 by lia.
    destruct (ge_times_0_8 _ _); vm_compute; lia. }
  split_and!; [done | | done |].
  - apply number_ge_60_real; [lia | done].
  - set (sc := score_of _ _ _ _ _ _ _) in *.
    destruct (decide (sc = 7%nat)) as [Heq|Hne].
    + left. by apply strength_of_cases.
    + right. apply strength_of_cases. lia.
Qed.

Lemma generated_password_rating_witness :
  generate_password Request.default counting_source
  = (Ok (py_str "Bkifjh$lge2a"), {| outcome := λ k, k; consumed := 23 |})
  ∧ (∀ cls, included Request.default cls = true
            ∧ 1 ≤ minimum Request.default cls)
  ∧ 12 ≤ Request.length Request.default
  ∧ ∃ l, check_strength_locals (py_str "Bkifjh$lge2a") = Ok l
         ∧ (7 ≤ score l)%nat.
Proof.
  assert (Hall : ∀ cls, included Request.default cls = true
                        ∧ 1 ≤ minimum Request.default cls).
  { intros []; split; (reflexivity || (vm_compute; discriminate)). }
  split_and!; [reflexivity | exact Hall | vm_compute; discriminate |].
  destruct (generated_password_rating Request.default counting_source
              (py_str "Bkifjh$lge2a")
              {| outcome := λ k, k; consumed := 23 |} eq_refl Hall
              ltac:(vm_compute; discriminate))
    as (l & Hl & _ & _ & _ & Hscore & _).
  exists l. split; [exact Hl | exact Hscore].
Defined.

(** ** The saves of the image compressor *)



(** ** Every password that meets a request can be generated *)

Lemma feeds_source_of js : feeds (source_of js) js.
Proof. intros k j Hk. simpl. by rewrite Hk. Qed.

Lemma feeds_nil s : feeds s [].
Proof. by intros k j ?. Qed.

Lemma feeds_drew js1 js2 s s' :
  feeds s (js1 ++ js2) → drew (length js1) s s' → feeds s' js2.
Proof.
  intros Hfeeds [Hout Hcons] k j Hk. rewrite Hout, Hcons.
  rewrite <-(Nat.add_assoc (consumed s)). apply Hfeeds.
  rewrite lookup_app_r by lia.
  by replace (length js1 + k - length js1)%nat with k by lia.
Qed.

Lemma feeds_app_l js1 js2 s : feeds s (js1 ++ js2) → feeds s js1.
Proof.
  intros Hfeeds k j Hk. apply Hfeeds. by apply lookup_app_l_Some.
Qed.

Lemma bind_ok {A B} (m : M A) (k : A → M B) s a s' :
  m s = (Ok a, s') → bind m k s = k a s'.
Proof. intros Hm. unfold bind. by rewrite Hm. Qed.

Lemma randbelow_feeds n j js s :
  (j < n)%nat → feeds s (j :: js) →
  ∃ s', randbelow n s = (Ok j, s') ∧ drew 1 s s'.
Proof.
  intros Hj Hfeeds.
  exists {| outcome := outcome s; consumed := S (consumed s) |}.
  split; [|split; [done | simpl; lia]].
  unfold randbelow. f_equal. f_equal.
  specialize (Hfeeds 0%nat j eq_refl). rewrite Nat.add_0_r in Hfeeds.
  rewrite Hfeeds. by apply Nat.mod_small.
Qed.

Lemma choice_feeds (chars : str) c s j js :
  chars !! j = Some c → feeds s (j :: js) →
  ∃ s', choice chars s = (Ok c, s') ∧ drew 1 s s'.
Proof.
  intros Hj Hfeeds.
  pose proof (lookup_lt_Some _ _ _ Hj) as Hlt.
  destruct (randbelow_feeds (length chars) j js s Hlt Hfeeds)
    as (s' & Hrand & Hs').
  exists s'. split; [|done]. unfold choice.
  destruct chars as [|c0 chars']; [done|].
  rewrite (bind_ok _ _ _ _ _ Hrand). by rewrite Hj.
Qed.

Lemma repeat_choice_reach (chars l : str) :
  Forall (λ c, c ∈ chars) l →
  ∃ js, length js = length l
        ∧ ∀ s, feeds s js →
               ∃ s', repeat_draw (length l) (choice chars) s = (Ok l, s')
                     ∧ drew (length l) s s'.
Proof.
  induction 1 as [|c l Hc _ (js & Hlen & IH)].
  - exists []. split; [done|]. intros s _. exists s.
    split; [done | apply drew_refl].
  - apply list_elem_of_lookup_1 in Hc as [j Hj].
    exists (j :: js). split; [simpl; lia|]. intros s Hfeeds.
    destruct (choice_feeds chars c s j js Hj Hfeeds) as (s1 & Hrun & Hs1).
    destruct (IH s1) as (s2 & Hrest & Hs2).
    { by apply (feeds_drew [j] js s s1). }
    exists s2. split; [|by apply (drew_trans 1 (length l) s s1 s2)].
    simpl. rewrite (bind_ok _ _ _ _ _ Hrun), (bind_ok _ _ _ _ _ Hrest). done.
Qed.

Lemma shuffle_from_reach {A} i (x x' : list A) :
  (i < length x)%nat → x' ≡ₚ x → drop (S i) x' = drop (S i) x →
  ∃ js, length js = i
        ∧ ∀ s, feeds s js →
               ∃ s', shuffle_from i x s = (Ok x', s') ∧ drew i s s'.
Proof.
  revert x. induction i as [|i IH]; intros x Hi Hperm Hdrop.
  - exists []. split; [done|]. intros s _. exists s.
    split; [|apply drew_refl]. simpl. unfold ret. f_equal. f_equal.
    destruct x as [|a t]; [simpl in Hi; lia|].
    destruct x' as [|a' t']; [by apply Permutation_nil_cons in Hperm|].
    simpl in Hdrop. rewrite !drop_0 in Hdrop. subst t'.
    apply (Permutation_app_inv_r t [a'] [a]) in Hperm.
    by apply Permutation_singleton_r in Hperm as [= ->].
  - assert (Hlen : length x' = length x) by by rewrite Hperm.
    destruct (lookup_lt_is_Some_2 x' (S i)) as [y Hy]; [lia|].
    destruct (lookup_lt_is_Some_2 x (S i)) as [xi Hxi]; [lia|].
    assert (Htake : take (S (S i)) x' ≡ₚ take (S (S i)) x).
    { apply (Permutation_app_inv_r (drop (S (S i)) x)).
      rewrite <-Hdrop at 1. by rewrite !take_drop. }
    assert (Hin : y ∈ take (S (S i)) x).
    { rewrite <-Htake. apply elem_of_take. exists (S i). split; [done | lia]. }
    apply elem_of_take in Hin as (j & Hj & Hjlt).
    set (x1 := <[j := xi]> (<[S i := y]> x)).
    assert (Hswap : ∀ s, swap x (S i) j s = (Ok x1, s)).
    { intros s. unfold swap. by rewrite Hj, Hxi. }
    assert (Hx1 : x1 ≡ₚ x) by by apply exchange_Permutation.
    assert (Hx1y : x1 !! S i = Some y).
    { unfold x1. destruct (decide (j = S i)) as [->|Hne].
      - rewrite list_lookup_insert_eq by (rewrite length_insert; lia).
        congruence.
      - rewrite list_lookup_insert_ne by done.
        by rewrite list_lookup_insert_eq by lia. }
    assert (Hx1drop : drop (S (S i)) x1 = drop (S (S i)) x).
    { unfold x1. by rewrite !drop_insert_lt by lia. }
    destruct (IH x1) as (js & Hjs & Hrun).
    + rewrite Hx1. lia.
    + by rewrite Hx1.
    + rewrite (drop_S x' y (S i) Hy), (drop_S x1 y (S i) Hx1y).
      by rewrite Hdrop, Hx1drop.
    + exists (j :: js). split; [simpl; lia|]. intros s Hfeeds.
      destruct (randbelow_feeds (S (S i)) j js s Hjlt Hfeeds)
        as (s1 & Hrand & Hs1).
      destruct (Hrun s1) as (s2 & Hrest & Hs2).
      { by apply (feeds_drew [j] js s s1). }
      exists s2. split; [|by apply (drew_trans 1 i s s1 s2)].
      cbn [shuffle_from].
      rewrite (bind_ok _ _ _ _ _ Hrand), (bind_ok _ _ _ _ _ (Hswap s1)).
      done.
Qed.

Lemma shuffle_reach {A} (x x' : list A) :
  x' ≡ₚ x →
  ∃ js, length js = (length x - 1)%nat
        ∧ ∀ s, feeds s js →
               ∃ s', shuffle x s = (Ok x', s')
                     ∧ drew (length x - 1) s s'.
Proof.
  intros Hperm. unfold shuffle. destruct x as [|a t].
  - apply Permutation_nil_r in Hperm as ->. exists [].
    split; [done|]. intros s _. exists s. split; [done | apply drew_refl].
  - apply shuffle_from_reach; [simpl; lia | done |].
    rewrite !drop_ge; [done | simpl; lia | rewrite Hperm; simpl; lia].
Qed.

Lemma extract_counted alphabet (l : str) n :
  (n ≤ count_in alphabet l)%nat →
  ∃ l1 l2, l ≡ₚ l1 ++ l2 ∧ length l1 = n ∧ Forall (λ c, c ∈ alphabet) l1.
Proof.
  unfold count_in. intros Hn.
  exists (take n (filter (λ c, c ∈ alphabet) l)),
    (drop n (filter (λ c, c ∈ alphabet) l)
     ++ filter (λ c, ¬ c ∈ alphabet) l).
  split_and!.
  - by rewrite (assoc_L (++)), take_drop, filter_app_complement.
  - rewrite length_take. lia.
  - apply Forall_take, Forall_forall. intros c Hc.
    by apply list_elem_of_filter in Hc as [? _].
Qed.

Lemma extract_class r cls (l : str) :
  (required_count r cls ≤ count_in (alphabet_of r cls) l)%nat →
  ∃ l1 l2,
    l ≡ₚ l1 ++ l2 ∧ drawn_for r cls l1
    ∧ ∀ cls', cls' ≠ cls →
              count_in (alphabet_of r cls') l2
              = count_in (alphabet_of r cls') l.
Proof.
  intros (l1 & l2 & Hl & Hlen & Hall)%extract_counted.
  exists l1, l2. split_and!; [done | done |].
  intros cls' Hne.
  rewrite (count_in_Permutation _ _ _ Hl), count_in_app.
  rewrite (count_in_drawn_for r cls' cls l1) by done.
  by rewrite decide_False by done.
Qed.

Lemma meets_required r pw cls :
  meets r pw →
  (required_count r cls ≤ count_in (alphabet_of r cls) pw)%nat.
Proof.
  intros (_ & _ & Hcount). unfold required_count.
  destruct (included r cls) eqn:Hin; [|lia].
  specialize (Hcount cls Hin). lia.
Qed.

Lemma meets_parts r pw :
  meets r pw →
  ∃ rl ru rd rs filler,
    pw ≡ₚ (rl ++ ru ++ rd ++ rs) ++ filler
    ∧ drawn_for r Lowercase rl ∧ drawn_for r Uppercase ru
    ∧ drawn_for r Digit rd ∧ drawn_for r Special rs
    ∧ Forall (λ c, c ∈ candidate_pool r) filler.
Proof.
  intros Hmeets.
  pose proof (meets_required r pw Lowercase Hmeets) as Hl.
  pose proof (meets_required r pw Uppercase Hmeets) as Hu.
  pose proof (meets_required r pw Digit Hmeets) as Hd.
  pose proof (meets_required r pw Special Hmeets) as Hs.
  destruct (extract_class r Lowercase pw Hl) as (rl & t1 & Hpw & Hrl & H1).
  rewrite <-(H1 Uppercase) in Hu by done.
  rewrite <-(H1 Digit) in Hd by done.
  rewrite <-(H1 Special) in Hs by done.
  destruct (extract_class r Uppercase t1 Hu) as (ru & t2 & Ht1 & Hru & H2).
  rewrite <-(H2 Digit) in Hd by done.
  rewrite <-(H2 Special) in Hs by done.
  destruct (extract_class r Digit t2 Hd) as (rd & t3 & Ht2 & Hrd & H3).
  rewrite <-(H3 Special) in Hs by done.
  destruct (extract_class r Special t3 Hs) as (rs & filler & Ht3 & Hrs & _).
  exists rl, ru, rd, rs, filler.
  assert (Hperm : pw ≡ₚ (rl ++ ru ++ rd ++ rs) ++ filler).
  { rewrite Hpw, Ht1, Ht2, Ht3. by rewrite <-!(assoc_L (++)). }
  split_and!; [done..|].
  destruct Hmeets as (_ & Hpool & _).
  apply Forall_forall. intros c Hc. apply elem_of_candidate_pool, Hpool.
  rewrite Hperm, elem_of_app. by right.
Qed.

Lemma block_of_reach r cls l pool req :
  drawn_for r cls l →
  ∃ js, length js = length l
        ∧ ∀ s, feeds s js →
               ∃ s', block_of r cls pool req s
                     = (Ok (pool ++ pool_part r cls, req ++ l), s')
                     ∧ drew (length l) s s'.
Proof.
  intros [Hlen Hall].
  unfold block_of, class_block, pool_part, required_count in *.
  destruct (included r cls).
  - destruct (repeat_choice_reach (alphabet_of r cls) l Hall)
      as (js & Hjs & Hrun).
    exists js. split; [done|]. intros s Hfeeds.
    destruct (Hrun s Hfeeds) as (s' & Hdraw & Hs').
    exists s'. split; [|done]. unfold for_range.
    rewrite <-Hlen. by rewrite (bind_ok _ _ _ _ _ Hdraw).
  - apply length_zero_iff_nil in Hlen as ->. exists [].
    split; [done|]. intros s _. exists s.
    split; [by rewrite !app_nil_r | apply drew_refl].
Qed.

Lemma after_blocks_reach r pool req filler pw :
  pool ++ Request.custom_chars r ≠ [] →
  Z.of_nat (length req) ≤ Request.length r →
  Forall (λ c, c ∈ pool ++ Request.custom_chars r) filler →
  length filler = Z.to_nat (Request.length r - Z.of_nat (length req)) →
  pw ≡ₚ req ++ filler →
  ∃ js, ∀ s, feeds s js → ∃ s', after_blocks r pool req s = (Ok pw, s').
Proof.
  intros Hne Hmin Hfill Hlen Hpw.
  destruct (repeat_choice_reach _ filler Hfill) as (js1 & Hjs1 & Hdraw).
  destruct (shuffle_reach (req ++ filler) pw Hpw) as (js2 & Hjs2 & Hshuffle).
  exists (js1 ++ js2). intros s Hfeeds.
  destruct (Hdraw s (feeds_app_l _ _ _ Hfeeds)) as (s1 & Hrun1 & Hs1).
  rewrite <-Hjs1 in Hs1.
  destruct (Hshuffle s1 (feeds_drew _ _ _ _ Hfeeds Hs1)) as (s2 & Hrun2 & _).
  exists s2. unfold after_blocks.
  replace (match Request.custom_chars r with
           | [] => pool
           | _ :: _ => pool ++ Request.custom_chars r
           end) with (pool ++ Request.custom_chars r)
    by (destruct (Request.custom_chars r); [apply app_nil_r | done]).
  destruct (pool ++ Request.custom_chars r) as [|c0 l0] eqn:Hpool; [done|].
  rewrite bool_decide_eq_false_2 by lia. unfold for_range.
  rewrite <-Hlen.
  by rewrite (bind_ok _ _ _ _ _ Hrun1), (bind_ok _ _ _ _ _ Hrun2).
Qed.

(** X17: [generate_password] can return every password that meets the
    request: for a length of at least 4, each string of that length
    made of characters of the candidate pool and with the minimum
    count of every included class is returned for some values of the
    random source.  Together with what holds of every returned
    password, the possible results are exactly these strings. *)
Theorem generate_password_complete r pw :
  4 ≤ Request.length r →
  meets r pw →
  ∃ js s', generate_password r (source_of js) = (Ok pw, s').
Proof.
  intros Hlen4 Hmeets.
  destruct (meets_parts r pw Hmeets)
    as (rl & ru & rd & rs & filler & Hpw & Hl & Hu & Hd & Hs & Hfill).
  destruct Hmeets as (Hlen & Hpool & _).
  assert (Htotal : length (rl ++ ru ++ rd ++ rs) = total_required r).
  { unfold total_required.
    destruct Hl as [<- _], Hu as [<- _], Hd as [<- _], Hs as [<- _].
    rewrite !length_app. lia. }
  assert (Hpwlen : length pw = (total_required r + length filler)%nat).
  { by rewrite Hpw, length_app, Htotal. }
  destruct (block_of_reach r Lowercase rl [] [] Hl) as (jl & Hjl & Hrunl).
  destruct (block_of_reach r Uppercase ru ([] ++ pool_part r Lowercase)
              ([] ++ rl) Hu) as (ju & Hju & Hrunu).
  destruct (block_of_reach r Digit rd
              (([] ++ pool_part r Lowercase) ++ pool_part r Uppercase)
              (([] ++ rl) ++ ru) Hd) as (jd & Hjd & Hrund).
  destruct (block_of_reach r Special rs
              ((([] ++ pool_part r Lowercase) ++ pool_part r Uppercase)
               ++ pool_part r Digit)
              ((([] ++ rl) ++ ru) ++ rd) Hs) as (js & Hjs & Hruns).
  assert (Hpooleq : (((([] ++ pool_part r Lowercase) ++ pool_part r Uppercase)
                      ++ pool_part r Digit) ++ pool_part r Special)
                    ++ Request.custom_chars r = candidate_pool r).
  { unfold candidate_pool. by rewrite <-!(assoc_L (++)). }
  assert (Hreqeq : ((([] ++ rl) ++ ru) ++ rd) ++ rs = rl ++ ru ++ rd ++ rs).
  { by rewrite <-!(assoc_L (++)). }
  destruct (after_blocks_reach r
              (((([] ++ pool_part r Lowercase) ++ pool_part r Uppercase)
                ++ pool_part r Digit) ++ pool_part r Special)
              (((([] ++ rl) ++ ru) ++ rd) ++ rs) filler pw)
    as (ja & Hruna).
  { rewrite Hpooleq. destruct pw as [|c pw']; [simpl in Hlen; lia|].
    intros Hnil. specialize (Hpool c ltac:(left)).
    apply elem_of_candidate_pool in Hpool. rewrite Hnil in Hpool.
    by inv Hpool. }
  { rewrite Hreqeq, Htotal. lia. }
  { by rewrite Hpooleq. }
  { rewrite Hreqeq, Htotal. lia. }
  { by rewrite Hreqeq. }
  exists (jl ++ ju ++ jd ++ js ++ ja).
  pose proof (feeds_source_of (jl ++ ju ++ jd ++ js ++ ja)) as Hfeeds.
  set (s0 := source_of (jl ++ ju ++ jd ++ js ++ ja)) in *.
  destruct (Hrunl s0 (feeds_app_l _ _ _ Hfeeds)) as (s1 & Hrun1 & Hs1).
  rewrite <-Hjl in Hs1. pose proof (feeds_drew _ _ _ _ Hfeeds Hs1) as Hf1.
  destruct (Hrunu s1 (feeds_app_l _ _ _ Hf1)) as (s2 & Hrun2 & Hs2).
  rewrite <-Hju in Hs2. pose proof (feeds_drew _ _ _ _ Hf1 Hs2) as Hf2.
  destruct (Hrund s2 (feeds_app_l _ _ _ Hf2)) as (s3 & Hrun3 & Hs3).
  rewrite <-Hjd in Hs3. pose proof (feeds_drew _ _ _ _ Hf2 Hs3) as Hf3.
  destruct (Hruns s3 (feeds_app_l _ _ _ Hf3)) as (s4 & Hrun4 & Hs4).
  rewrite <-Hjs in Hs4. pose proof (feeds_drew _ _ _ _ Hf3 Hs4) as Hf4.
  destruct (Hruna s4 Hf4) as (s5 & Hrun5).
  exists s5. rewrite generate_password_blocks.
  rewrite bool_decide_eq_false_2 by lia.
  rewrite (bind_ok _ _ _ _ _ Hrun1), (bind_ok _ _ _ _ _ Hrun2),
    (bind_ok _ _ _ _ _ Hrun3), (bind_ok _ _ _ _ _ Hrun4).
  done.
Qed.

Lemma generate_password_complete_witness :
  4 ≤ Request.length Request.default
  ∧ meets Request.default (py_str "Tr0ub4dor&3x")
  ∧ ∃ js s', generate_password Request.default (source_of js)
             = (Ok (py_str "Tr0ub4dor&3x"), s').
Proof.
  assert (Hmeets : meets Request.default (py_str "Tr0ub4dor&3x")).
  { split_and!.
    - reflexivity.
    - apply Forall_forall.
      assert (Hpool : Forall (λ c, c ∈ candidate_pool Request.default)
                        (py_str "Tr0ub4dor&3x"))
        by (apply (bool_decide_unpack _); vm_compute; exact I).
      eapply Forall_impl; [exact Hpool|].
      intros c Hc. by apply elem_of_candidate_pool.
    - intros [] _; vm_compute; discriminate. }
  split_and!; [vm_compute; discriminate | exact Hmeets |].
  exact (generate_password_complete Request.default (py_str "Tr0ub4dor&3x")
           ltac:(vm_compute; discriminate) Hmeets).
Defined.
